(** * Bill splitter: price extraction and split computation

    A shallow embedding of [src/App.tsx]: the text-to-items extraction run
    on the OCR output, the people and item handlers of the [App] component,
    and the two totals shown under the item table.

    Conventions of the embedding.
    - A JavaScript string is the list of its UTF-16 code units.
    - A JavaScript [number] is an exact rational or one of [NaN],
      [+Infinity], [-Infinity]: arithmetic is exact (no rounding to
      binary64) and there is no negative zero.  The comparisons the code
      makes are against [0], [0.5] and [1000], which binary64 represents
      exactly, so rounding a parsed decimal cannot change their outcome.
      What is stated of the program about sums and quotients is what
      rounding leaves alone: which terms are added and in which order,
      finiteness, bounds, and values that binary64 computes exactly.  An
      equality between sums that round differently is a fact of the exact
      arithmetic only, and the lemmas that state one say so.
    - The component state held by the [useState] hooks is one record, and
      every handler is a function from the state of the render it closes
      over to the state after its setters have run.
    - [processImage] is asynchronous.  It is embedded as the pieces that
      run between its [await]s, and a session keeps the file readers and
      the uploads that are under way, so that the other handlers can run
      while an upload waits for the OCR worker; what resumes after an
      [await] acts on the state of that moment with the [people] of the
      render that started the upload. *)

From Stdlib Require Import Ascii QArith Qcanon.
From stdpp Require Import base list numbers strings pretty.

(** ** JavaScript strings *)

Module Js.

Definition char := N.
Definition jsstring := list char.

(** A string literal of the source, as code units. *)
Definition lit (s : string) : jsstring :=
  N_of_ascii <$> String.list_ascii_of_string s.

(** [Number.prototype.toString] on a non-negative integer. *)
Definition toString (n : nat) : jsstring := lit (pretty n).

(** WhiteSpace and LineTerminator code units: the set stripped by
    [String.prototype.trim] and matched by the regular expression
    class [\s]. *)
Definition isWhiteSpace (c : char) : bool :=
  bool_decide (c ∈ [9; 10; 11; 12; 13; 32; 160; 5760; 8232; 8233; 8239;
                    8287; 12288; 65279]%N)
  || (8192 <=? c)%N && (c <=? 8202)%N.

(** The class [\d]. *)
Definition isDigit (c : char) : bool := (48 <=? c)%N && (c <=? 57)%N.

Fixpoint trimStart (s : jsstring) : jsstring :=
  match s with
  | c :: r => if isWhiteSpace c then trimStart r else s
  | [] => []
  end.

Definition trimEnd (s : jsstring) : jsstring :=
  reverse (trimStart (reverse s)).

Definition trim (s : jsstring) : jsstring := trimEnd (trimStart s).

(** [s.split('\n')]: the pieces between line feeds; never empty. *)
Fixpoint split_lf (s : jsstring) : list jsstring :=
  match s with
  | [] => [[]]
  | c :: r =>
      if (c =? 10)%N then [] :: split_lf r
      else match split_lf r with
           | h :: t => (c :: h) :: t
           | [] => [[c]]
           end
  end.

(** The longest prefix of [s] made of code units in the class [f], and
    what follows it. *)
Fixpoint span (f : char → bool) (s : jsstring) : jsstring * jsstring :=
  match s with
  | c :: r => if f c then let '(m, r') := span f r in (c :: m, r')
              else ([], s)
  | [] => ([], [])
  end.

Fixpoint startsWith (p s : jsstring) : option jsstring :=
  match p, s with
  | [], _ => Some s
  | a :: p', b :: s' => if (a =? b)%N then startsWith p' s' else None
  | _ :: _, [] => None
  end.

End Js.

Export Js.

(** ** JavaScript numbers *)

Module Number.

Inductive number : Type :=
| Fin (q : Qc)
| NaN
| PosInf
| NegInf.

Definition zero : number := Fin 0%Qc.

(** An array length as a number. *)
Definition of_nat (n : nat) : number := Fin (Qc_of_Z (Z.of_nat n)).

Definition isNaN (x : number) : bool :=
  match x with NaN => true | _ => false end.

Definition isFinite (x : number) : bool :=
  match x with Fin _ => true | _ => false end.

(** [x + y], exact: no rounding and no overflow.  Binary64 addition is
    commutative and monotone and has [0] as unit, but it is not
    associative. *)
Definition add (x y : number) : number :=
  match x, y with
  | NaN, _ | _, NaN => NaN
  | Fin a, Fin b => Fin (a + b)%Qc
  | PosInf, NegInf | NegInf, PosInf => NaN
  | PosInf, _ | _, PosInf => PosInf
  | NegInf, _ | _, NegInf => NegInf
  end.

(** [x / y], exact: no rounding; the zero of the model is the positive
    zero.  In binary64 [n] times [x / n] need not add up to [x]. *)
Definition div (x y : number) : number :=
  match x, y with
  | NaN, _ | _, NaN => NaN
  | Fin a, Fin b =>
      if bool_decide (b = 0)%Qc then
        if bool_decide (a = 0)%Qc then NaN
        else if bool_decide (0 < a)%Qc then PosInf else NegInf
      else Fin (a / b)%Qc
  | Fin _, (PosInf | NegInf) => Fin 0%Qc
  | PosInf, Fin b => if bool_decide (b < 0)%Qc then NegInf else PosInf
  | NegInf, Fin b => if bool_decide (b < 0)%Qc then PosInf else NegInf
  | (PosInf | NegInf), (PosInf | NegInf) => NaN
  end.

(** [x < y] and [x <= y]; every comparison with [NaN] is false. *)
Definition lt (x y : number) : bool :=
  match x, y with
  | NaN, _ | _, NaN => false
  | Fin a, Fin b => bool_decide (a < b)%Qc
  | PosInf, _ => false
  | _, PosInf => true
  | NegInf, NegInf => false
  | NegInf, _ => true
  | Fin _, NegInf => false
  end.

Definition le (x y : number) : bool :=
  match x, y with
  | NaN, _ | _, NaN => false
  | Fin a, Fin b => bool_decide (a ≤ b)%Qc
  | _, PosInf => true
  | PosInf, _ => false
  | NegInf, _ => true
  | Fin _, NegInf => false
  end.

(** [x > y] and [x >= y] *)
Definition gt (x y : number) : bool := lt y x.
Definition ge (x y : number) : bool := le y x.

(** The value of a run of decimal digits. *)
Definition digitsValue (ds : jsstring) : Z :=
  foldl (λ acc d, 10 * acc + (Z.of_N d - 48))%Z 0%Z ds.

(** ExponentPart of a decimal literal: [e] or [E], an optional sign and
    at least one digit; [0] when [s] does not start with one. *)
Definition exponentPart (s : jsstring) : Z :=
  match s with
  | c :: r =>
      if bool_decide (c = 101 ∨ c = 69)%N then
        let '(neg, r) :=
          match r with
          | 43%N :: r' => (false, r')
          | 45%N :: r' => (true, r')
          | _ => (false, r)
          end in
        let '(ds, _) := span isDigit r in
        match ds with
        | [] => 0%Z
        | _ => if neg then (- digitsValue ds)%Z else digitsValue ds
        end
      else 0%Z
  | [] => 0%Z
  end.

(** The global [parseFloat]: leading white space is skipped, the longest
    prefix that is a decimal literal is valued, and [NaN] is returned
    when there is none. *)
Definition parseFloat (s : jsstring) : number :=
  let s := trimStart s in
  let '(neg, s) :=
    match s with
    | 43%N :: r => (false, r)
    | 45%N :: r => (true, r)
    | _ => (false, s)
    end in
  match startsWith (lit "Infinity") s with
  | Some _ => if neg then NegInf else PosInf
  | None =>
      let '(ip, r1) := span isDigit s in
      let '(fp, r2) :=
        match r1 with
        | 46%N :: r => span isDigit r
        | _ => ([], r1)
        end in
      match ip ++ fp with
      | [] => NaN
      | ds =>
          let m := digitsValue ds in
          let e := (exponentPart r2 - Z.of_nat (length fp))%Z in
          let q := (inject_Z (if neg then - m else m) * (10 # 1) ^ e)%Q in
          Fin (Q2Qc q)
      end
  end.

End Number.

Export Number(number, Fin, NaN, PosInf, NegInf, parseFloat).

(** ** The price pattern

    A backtracking matcher in the style of the ECMAScript semantics: a
    pattern maps the remaining input to the list of its possible matches,
    most preferred first, each with what is left after it.  Greedy
    quantifiers list the longer matches before the shorter ones, and the
    matcher commits to the first alternative that lets the rest of the
    pattern succeed. *)

Module Regex.

Definition pattern := jsstring → list (jsstring * jsstring).

(** One code unit of a class. *)
Definition class (f : char → bool) : pattern := λ s,
  match s with
  | c :: r => if f c then [([c], r)] else []
  | [] => []
  end.

(** [p q] *)
Definition seq (p q : pattern) : pattern := λ s,
  '(m1, r1) ← p s; '(m2, r2) ← q r1; [(m1 ++ m2, r2)].

(** [p?], greedy *)
Definition opt (p : pattern) : pattern := λ s, p s ++ [([], s)].

(** [c*] for a class [c], greedy *)
Fixpoint star (f : char → bool) (s : jsstring) : list (jsstring * jsstring) :=
  match s with
  | c :: r =>
      if f c then ((λ '(m, r'), (c :: m, r')) <$> star f r) ++ [([], s)]
      else [([], s)]
  | [] => [([], [])]
  end.

(** [c+] for a class [c], greedy *)
Definition plus (f : char → bool) : pattern := seq (class f) (star f).

(** [$] without the multiline flag: the end of the input. *)
Definition eos : pattern := λ s,
  match s with [] => [([], [])] | _ :: _ => [] end.

Definition isDollar (c : char) : bool := (c =? 36)%N.
Definition isDot (c : char) : bool := (c =? 46)%N.

(** Group 1, [(\d+(?:\.\d{2})?)] *)
Definition amountGroup : pattern :=
  seq (plus isDigit)
      (opt (seq (class isDot) (seq (class isDigit) (class isDigit)))).

(** [/(?:[$]?\s*(\d+(?:\.\d{2})?))$/] attempted at the start of [s]:
    the matches as pairs of the whole match and of group 1. *)
Definition priceAt (s : jsstring) : list (jsstring * jsstring) :=
  '(m0, r0) ← opt (class isDollar) s;
  '(m1, r1) ← star isWhiteSpace r0;
  '(g, r2) ← amountGroup r1;
  '(_, _) ← eos r2;
  [(m0 ++ m1 ++ g, g)].

(** [s.match(re)] for the price pattern: the match at the leftmost
    position where the pattern succeeds, as [(priceMatch[0],
    priceMatch[1])], or [None] for [null]. *)
Fixpoint priceMatch (s : jsstring) : option (jsstring * jsstring) :=
  match head (priceAt s) with
  | Some r => Some r
  | None => match s with
            | [] => None
            | _ :: s' => priceMatch s'
            end
  end.

End Regex.

(** ** Data model *)

Module Person.
Record t := mk { id : jsstring; name : jsstring }.
End Person.
Abbreviation Person := Person.t.

Record BillItem := mkBillItem {
  description : jsstring;
  amount : number;
  includedInSplit : bool;
  assignedTo : list jsstring
}.

(** The values of the [useState] hooks of [App]. *)
Record State := mkState {
  isProcessing : bool;
  items : list BillItem;
  people : list Person;
  error : option jsstring;
  imagePreview : option jsstring
}.

Definition initialState : State :=
  {| isProcessing := false;
     items := [];
     people := [Person.mk (lit "1") (lit "Person 1");
                Person.mk (lit "2") (lit "Person 2")];
     error := None;
     imagePreview := None |}.

Definition setIsProcessing (b : bool) (st : State) : State :=
  mkState b (items st) (people st) (error st) (imagePreview st).
Definition setItems (l : list BillItem) (st : State) : State :=
  mkState (isProcessing st) l (people st) (error st) (imagePreview st).
Definition setPeople (l : list Person) (st : State) : State :=
  mkState (isProcessing st) (items st) l (error st) (imagePreview st).
Definition setError (e : option jsstring) (st : State) : State :=
  mkState (isProcessing st) (items st) (people st) e (imagePreview st).
Definition setImagePreview (p : option jsstring) (st : State) : State :=
  mkState (isProcessing st) (items st) (people st) (error st) p.

(** [arr.includes(x)] on an array of strings. *)
Definition includes (l : list jsstring) (x : jsstring) : bool :=
  bool_decide (x ∈ l).

(** ** People *)

Definition addPerson (st : State) : State :=
  let newId := toString (length (people st) + 1) in
  setPeople (people st ++ [Person.mk newId (lit "Person " ++ newId)]) st.

Definition removePerson (id : jsstring) (st : State) : State :=
  if bool_decide (2 < length (people st)) then
    setItems
      ((λ item, mkBillItem (description item) (amount item)
                  (includedInSplit item)
                  (filter (λ personId, personId ≠ id) (assignedTo item)))
         <$> items st)
      (setPeople (filter (λ p, Person.id p ≠ id) (people st)) st)
  else st.

Definition updatePersonName (id newName : jsstring) (st : State) : State :=
  setPeople
    ((λ p, if bool_decide (Person.id p = id)
           then Person.mk (Person.id p) newName else p) <$> people st)
    st.

(** ** Price extraction *)

Definition noPricesFound : jsstring :=
  lit "No prices found in the receipt. Please ensure the image is clear and contains dollar amounts.".

Definition processingFailed : jsstring :=
  lit "An error occurred while processing the image. Please try again.".

Definition notAnImage : jsstring :=
  lit "Selected file is not an image. Please choose an image file.".

(** The range test on a parsed price. *)
Definition priceAccepted (price : number) : bool :=
  negb (Number.isNaN price) && Number.gt price Number.zero
  && (Number.ge price (Fin (Q2Qc (1 # 2))) && Number.le price (Fin (Q2Qc 1000))).

(** One iteration of the loop over the lines: [prices] after the body has
    run on [line]. *)
Definition scanLine (prices : list jsstring) (line : jsstring) : list jsstring :=
  let trimmedLine := trim line in
  match Regex.priceMatch trimmedLine with
  | Some (_, priceStr) =>
      let price := parseFloat priceStr in
      if negb (Number.isNaN price) && Number.gt price Number.zero then
        if Number.ge price (Fin (Q2Qc (1 # 2)))
           && Number.le price (Fin (Q2Qc 1000))
        then prices ++ [priceStr]
        else prices
      else prices
  | None => prices
  end.

(** [prices] when the loop ends. *)
Definition collectPrices (text : jsstring) : list jsstring :=
  foldl scanLine [] (split_lf text).

(** [prices.map((price, index) => ...)] with the [people] of the render. *)
Definition newItems (people : list Person) (prices : list jsstring)
  : list BillItem :=
  imap (λ index price,
          {| description := lit "Item " ++ toString (index + 1);
             amount := parseFloat price;
             includedInSplit := true;
             assignedTo := Person.id <$> people |})
       prices.

(** What follows [worker.recognize]: the loop, and the branch on
    [prices.length].  [people0] is the [people] that [processImage] closes
    over, those of the render that started the upload: the [await]s do
    not refresh it.  The setters act on the state of the moment. *)
Definition extractItems (people0 : list Person) (text : jsstring)
    (st : State) : State :=
  let prices := collectPrices text in
  if bool_decide (0 < length prices) then
    setItems (newItems people0 prices) st
  else
    setError (Some noPricesFound) st.

(** [processImage(file)] up to its first [await]: the two setters; the
    file reader and the OCR worker are started. *)
Definition processImageStart (st : State) : State :=
  setError None (setIsProcessing true st).

(** [reader.onload], with the data URL that the reader hands over. *)
Definition readerOnload (dataUrl : jsstring) (st : State) : State :=
  setImagePreview (Some dataUrl) st.

(** [createWorker] or [recognize] rejects: the [catch] block and the last
    statement. *)
Definition processImageFailed (st : State) : State :=
  setIsProcessing false (setError (Some processingFailed) st).

(** [worker.terminate] has settled: the [catch] block when it rejects,
    and the last statement. *)
Definition processImageEnd (terminateThrows : bool) (st : State) : State :=
  setIsProcessing false
    (if terminateThrows then setError (Some processingFailed) st else st).

(** What the OCR worker does with the file: [createWorker] or [recognize]
    throws, or text is recognised and [terminate] returns or throws. *)
Inductive OcrOutcome :=
| OcrThrows
| Recognized (text : jsstring) (terminateThrows : bool).

(** Everything of [processImage] that runs after the worker was started,
    when no other event comes in between. *)
Definition processImageSettled (people0 : list Person) (ocr : OcrOutcome)
    (st : State) : State :=
  match ocr with
  | OcrThrows => processImageFailed st
  | Recognized text terminateThrows =>
      processImageEnd terminateThrows (extractItems people0 text st)
  end.

(** [processImage(file)] when the file is read and the worker settles
    before any other event: the pieces in a row, on the render that
    started the upload.  [dataUrl] is what the file reader hands to its
    [onload] callback. *)
Definition processImage (dataUrl : jsstring) (ocr : OcrOutcome) (st : State)
  : State :=
  processImageSettled (people st) ocr
    (readerOnload dataUrl (processImageStart st)).

Record File := mkFile { type : jsstring; dataUrl : jsstring }.

(** [file.type.startsWith('image/')] *)
Definition isImage (f : File) : bool :=
  bool_decide (is_Some (startsWith (lit "image/") (type f))).

(** [handleFileUpload(event)], with [event.target.files?.[0]] as [file],
    when the upload it starts settles before any other event. *)
Definition handleFileUpload (file : option File) (ocr : OcrOutcome)
    (st : State) : State :=
  match file with
  | Some f =>
      if isImage f
      then processImage (dataUrl f) ocr st
      else setError (Some notAnImage) st
  | None => st
  end.

(** ** Split computation *)

Definition calculateTotal (items : list BillItem) : number :=
  foldl (λ sum item, Number.add sum (amount item)) Number.zero
    (filter (λ item, includedInSplit item) items).

Definition calculatePerPerson (items : list BillItem) (personId : jsstring)
  : number :=
  foldl (λ sum item,
           Number.add sum
             (Number.div (amount item)
                (Number.of_nat (length (assignedTo item)))))
    Number.zero
    (filter (λ item, includedInSplit item && includes (assignedTo item) personId)
       items).

(** ** Item handlers *)

(** The branches of [toggleItemAssignment] on the item they update. *)
Definition toggleAssignment (personId : jsstring) (item : BillItem) : BillItem :=
  if includes (assignedTo item) personId then
    if bool_decide (1 < length (assignedTo item)) then
      mkBillItem (description item) (amount item) (includedInSplit item)
        (filter (λ id, id ≠ personId) (assignedTo item))
    else item
  else
    mkBillItem (description item) (amount item) (includedInSplit item)
      (assignedTo item ++ [personId]).

(** [None] when [items[itemIndex]] is [undefined]: reading [assignedTo]
    throws and no setter runs. *)
Definition toggleItemAssignment (itemIndex : nat) (personId : jsstring)
    (st : State) : option State :=
  item ← items st !! itemIndex;
  Some (setItems (<[itemIndex := toggleAssignment personId item]> (items st)) st).

(** The [onChange] handlers of the checkbox and of the description field
    of row [index]. *)
Definition onIncludeChange (index : nat) (checked : bool) (st : State)
  : option State :=
  item ← items st !! index;
  Some (setItems
          (<[index := mkBillItem (description item) (amount item) checked
                        (assignedTo item)]> (items st)) st).

Definition onDescriptionChange (index : nat) (value : jsstring) (st : State)
  : option State :=
  item ← items st !! index;
  Some (setItems
          (<[index := mkBillItem value (amount item) (includedInSplit item)
                        (assignedTo item)]> (items st)) st).

Definition clearAll (st : State) : State :=
  setError None (setImagePreview None (setItems [] st)).

(** ** Sessions *)

(** An upload under way: [processImage] waits for [createWorker] or
    [recognize], and will resume with the [people] it closes over; or it
    has handled the text and waits for [worker.terminate]. *)
Inductive Upload :=
| Recognizing (people0 : list Person)
| Terminating.

(** The state of the last render, the data URLs of the file readers that
    are still reading, and the uploads under way, oldest first. *)
Record Session := mkSession {
  current : State;
  readers : list jsstring;
  uploads : list Upload
}.

Definition initialSession : Session := mkSession initialState [] [].

(** The events of a session: what the user does, and what the file
    readers and the OCR workers report, each report for the reader or the
    upload at position [k].  [HandleFileUpload] is the choice of a file
    together with all the reports of its upload, for an upload that
    settles before the next event. *)
Inductive Action :=
| AddPerson
| RemovePerson (id : jsstring)
| UpdatePersonName (id newName : jsstring)
| HandleFileUpload (file : option File) (ocr : OcrOutcome)
| ToggleItemAssignment (itemIndex : nat) (personId : jsstring)
| IncludeChange (index : nat) (checked : bool)
| DescriptionChange (index : nat) (value : jsstring)
| ClearAll
| FileChosen (file : option File)
| ReaderLoads (k : nat)
| OcrSettles (k : nat) (text : option jsstring)
| TerminateSettles (k : nat) (throws : bool).

(** The handlers that run to their end on the render they close over.  A
    handler that throws leaves the state as it was.  The choice of a file
    and the reports of an upload under way are not of this kind: [step]
    takes them, and they are left alone here. *)
Definition handle (st : State) (a : Action) : State :=
  match a with
  | AddPerson => addPerson st
  | RemovePerson id => removePerson id st
  | UpdatePersonName id newName => updatePersonName id newName st
  | HandleFileUpload file ocr => handleFileUpload file ocr st
  | ToggleItemAssignment i personId =>
      default st (toggleItemAssignment i personId st)
  | IncludeChange i checked => default st (onIncludeChange i checked st)
  | DescriptionChange i value => default st (onDescriptionChange i value st)
  | ClearAll => clearAll st
  | FileChosen _ | ReaderLoads _ | OcrSettles _ _ | TerminateSettles _ _ => st
  end.

(** [handleFileUpload(event)] as it returns: [processImage] has run up to
    its first [await], with a reader and a worker started. *)
Definition fileChosen (file : option File) (s : Session) : Session :=
  match file with
  | Some f =>
      if isImage f
      then mkSession (processImageStart (current s))
             (readers s ++ [dataUrl f])
             (uploads s ++ [Recognizing (people (current s))])
      else mkSession (setError (Some notAnImage) (current s))
             (readers s) (uploads s)
  | None => s
  end.

(** One event.  A report for a reader or an upload that is not there, or
    not at that point, changes nothing. *)
Definition step (s : Session) (a : Action) : Session :=
  match a with
  | FileChosen file => fileChosen file s
  | ReaderLoads k =>
      match readers s !! k with
      | Some url =>
          mkSession (readerOnload url (current s)) (delete k (readers s))
            (uploads s)
      | None => s
      end
  | OcrSettles k result =>
      match uploads s !! k with
      | Some (Recognizing people0) =>
          match result with
          | Some text =>
              mkSession (extractItems people0 text (current s)) (readers s)
                (<[k := Terminating]> (uploads s))
          | None =>
              mkSession (processImageFailed (current s)) (readers s)
                (delete k (uploads s))
          end
      | _ => s
      end
  | TerminateSettles k throws =>
      match uploads s !! k with
      | Some Terminating =>
          mkSession (processImageEnd throws (current s)) (readers s)
            (delete k (uploads s))
      | _ => s
      end
  | _ => mkSession (handle (current s) a) (readers s) (uploads s)
  end.

Definition runSession (actions : list Action) : Session :=
  foldl step initialSession actions.

(** The state shown after [actions]. *)
Definition run (actions : list Action) : State := current (runSession actions).

(** What the rendered page lets the user do: the remove buttons exist
    while more than two people are listed, the name fields and the
    buttons act on the people listed, the table rows are those of the
    items, and the table and its Start New button are rendered while
    there are items. *)
Definition enabled (st : State) (a : Action) : bool :=
  match a with
  | AddPerson => true
  | RemovePerson id =>
      bool_decide (2 < length (people st))
      && bool_decide (id ∈ Person.id <$> people st)
  | UpdatePersonName id _ => bool_decide (id ∈ Person.id <$> people st)
  | HandleFileUpload _ _ => true
  | ToggleItemAssignment i personId =>
      bool_decide (i < length (items st))
      && bool_decide (personId ∈ Person.id <$> people st)
  | IncludeChange i _ => bool_decide (i < length (items st))
  | DescriptionChange i _ => bool_decide (i < length (items st))
  | ClearAll => bool_decide (0 < length (items st))
  | FileChosen _ => true
  | ReaderLoads _ | OcrSettles _ _ | TerminateSettles _ _ => false
  end.

(** The events that can come next: what the page offers, and the reports
    of the readers and of the uploads under way. *)
Definition offered (s : Session) (a : Action) : bool :=
  match a with
  | ReaderLoads k => bool_decide (k < length (readers s))
  | OcrSettles k _ =>
      match uploads s !! k with Some (Recognizing _) => true | _ => false end
  | TerminateSettles k _ =>
      match uploads s !! k with Some Terminating => true | _ => false end
  | _ => enabled (current s) a
  end.

(** The sessions whose events are among [allowed]. *)
Inductive sessionBy (allowed : Action → Prop) : Session → Prop :=
| session_initial : sessionBy allowed initialSession
| session_step (s : Session) (a : Action) :
    sessionBy allowed s → allowed a → offered s a →
    sessionBy allowed (step s a).

(** The states a session can show, when its events are among [allowed]. *)
Definition reachableBy (allowed : Action → Prop) (st : State) : Prop :=
  ∃ s : Session, sessionBy allowed s ∧ current s = st.

Definition reachable : State → Prop := reachableBy (λ _, True).

(** Only people are added and removed. *)
Definition isPeopleAction (a : Action) : Prop :=
  match a with AddPerson | RemovePerson _ => True | _ => False end.

Definition reachableByPeopleActions : State → Prop := reachableBy isPeopleAction.

(** Every upload settles before the next event: no event is a separate
    report of a reader or of a worker. *)
Definition isUninterrupted (a : Action) : Prop :=
  match a with
  | FileChosen _ | ReaderLoads _ | OcrSettles _ _ | TerminateSettles _ _ => False
  | _ => True
  end.

(** The session after [actions], when each of them is offered in turn. *)
Fixpoint runOffered (s : Session) (actions : list Action) : option Session :=
  match actions with
  | [] => Some s
  | a :: rest => if offered s a then runOffered (step s a) rest else None
  end.

(** An upload whose worker is still recognising. *)
Definition isRecognizing (u : Upload) : bool :=
  match u with Recognizing _ => true | Terminating => false end.

(** Nobody is removed while a worker recognises: the event is not a
    removal, or every upload under way has handled its text already. *)
Definition removalWaits (s : Session) (a : Action) : bool :=
  match a with
  | RemovePerson _ => forallb (λ u, negb (isRecognizing u)) (uploads s)
  | _ => true
  end.

(** The sessions whose every event is allowed at the point where it
    comes, and the states they show. *)
Inductive sessionWhen (allowed : Session → Action → bool) : Session → Prop :=
| sessionWhen_initial : sessionWhen allowed initialSession
| sessionWhen_step (s : Session) (a : Action) :
    sessionWhen allowed s → allowed s a → offered s a →
    sessionWhen allowed (step s a).

Definition reachableWhen (allowed : Session → Action → bool) (st : State)
  : Prop :=
  ∃ s : Session, sessionWhen allowed s ∧ current s = st.

(** The session after [actions], when each of them is allowed and offered
    in turn. *)
Fixpoint runWhen (allowed : Session → Action → bool) (s : Session)
    (actions : list Action) : option Session :=
  match actions with
  | [] => Some s
  | a :: rest =>
      if allowed s a && offered s a then runWhen allowed (step s a) rest
      else None
  end.

(** The events of an upload that settles at once: the choice of the file,
    then the reports of the reader and of the worker that it has just
    started, which are the last of their lists. *)
Definition uploadEvents (s : Session) (file : option File) (ocr : OcrOutcome)
  : list Action :=
  FileChosen file ::
  match file with
  | Some f =>
      if isImage f then
        ReaderLoads (length (readers s)) ::
        match ocr with
        | OcrThrows => [OcrSettles (length (uploads s)) None]
        | Recognized text throws =>
            [OcrSettles (length (uploads s)) (Some text);
             TerminateSettles (length (uploads s)) throws]
        end
      else []
  | None => []
  end.

(** Every assignee of every item is one of the people. *)
Definition assigneesKnown (st : State) : Prop :=
  Forall (λ item, assignedTo item ⊆ Person.id <$> people st) (items st).

(** ** Notions of the specification *)

(** The sum of the shares of the people of the session. *)
Definition sumOfShares (people : list Person) (items : list BillItem) : number :=
  foldl (λ sum p, Number.add sum (calculatePerPerson items (Person.id p)))
    Number.zero people.

(** The candidate of a line: the amount token matched at its end. *)
Definition candidate (line : jsstring) : option jsstring :=
  snd <$> Regex.priceMatch (trim line).

(** The candidates that survive, in the order of their lines. *)
Definition survivingCandidates (text : jsstring) : list jsstring :=
  filter (λ c, priceAccepted (parseFloat c))
    (omap candidate (split_lf text)).

(** What group 1 can match. *)
Definition tokenShape (g : jsstring) : Prop :=
  ∃ ip : jsstring, ip ≠ [] ∧ Forall isDigit ip ∧
    (g = ip ∨
     ∃ d1 d2 : char, isDigit d1 ∧ isDigit d2 ∧ g = ip ++ [46%N; d1; d2]).

(** The amount that a price token writes: a run of digits, or a run of
    digits, a point and two digits. *)
Definition priceToken (g : jsstring) (q : Qc) : Prop :=
  ∃ ip : jsstring, ip ≠ [] ∧ Forall isDigit ip ∧
    ((g = ip ∧ q = Qc_of_Z (Number.digitsValue ip)) ∨
     (∃ d1 d2 : char, isDigit d1 ∧ isDigit d2 ∧ g = ip ++ [46%N; d1; d2] ∧
        q = (Qc_of_Z (Number.digitsValue ip)
             + Qc_of_Z (Number.digitsValue [d1; d2]) / Q2Qc 100)%Qc)).

(** The text before a price token keeps it apart: it is empty, or its
    last character is neither a digit nor a point. *)
Definition separated (pre : jsstring) : Prop :=
  match last pre with
  | Some c => isDigit c = false ∧ c ≠ 46%N
  | None => True
  end.

(** Nobody is removed. *)
Definition isNotRemoval (a : Action) : Prop :=
  match a with RemovePerson _ => False | _ => True end.

(** Every amount has passed the range test. *)
Definition amountsAccepted (st : State) : Prop :=
  Forall (λ item, priceAccepted (amount item)) (items st).

(** The people are numbered from 1 on and are at least two, and every
    item is assigned to some of them, without repetition. *)
Definition numbered (st : State) : Prop :=
  Person.id <$> people st = toString <$> seq 1 (length (people st)) ∧
  2 ≤ length (people st) ∧
  Forall (λ item, assignedTo item ≠ [] ∧ NoDup (assignedTo item) ∧
                  assignedTo item ⊆ Person.id <$> people st) (items st).

(** The people that the uploads under way close over are people listed. *)
Definition uploadsKnown (s : Session) : Prop :=
  Forall (λ u, match u with
               | Recognizing people0 =>
                   Person.id <$> people0 ⊆ Person.id <$> people (current s)
               | Terminating => True
               end) (uploads s).

(** The people that an upload under way closes over are numbered from 1
    on; they are at least two and no more than [n]. *)
Definition uploadNumbered (n : nat) (u : Upload) : Prop :=
  match u with
  | Recognizing people0 =>
      Person.id <$> people0 = toString <$> seq 1 (length people0) ∧
      2 ≤ length people0 ≤ n
  | Terminating => True
  end.

(** So it is for every upload under way, for the number of people listed. *)
Definition uploadsNumbered (s : Session) : Prop :=
  Forall (uploadNumbered (length (people (current s)))) (uploads s).

(** A text of several lines, for the examples. *)
Fixpoint receipt (lines : list string) : jsstring :=
  match lines with
  | [] => []
  | [l] => lit l
  | l :: ls => lit l ++ 10%N :: receipt ls
  end.

(** An image file, for the examples. *)
Definition imageFile : File := mkFile (lit "image/png") (lit "data:image/png;base64,").

(** * Properties *)

(** A decidable closed proposition, by evaluation. *)
Ltac by_evaluation := apply (bool_decide_unpack _); vm_compute; exact I.

(** Equality of two closed numbers, by evaluation. *)
Ltac number_eq :=
  vm_compute; repeat f_equal; apply Qc_is_canon; reflexivity.

(** ** Sessions *)

Lemma runOffered_session (allowed : Action → Prop) (actions : list Action)
    (s s' : Session) :
  sessionBy allowed s → Forall allowed actions →
  runOffered s actions = Some s' → sessionBy allowed s'.
Proof.
  intros Hs Hall. revert s Hs.
  induction Hall as [|a actions Ha _ IH]; intros s Hs; cbn [runOffered].
  { by intros [= <-]. }
  destruct (offered s a) eqn:Hoff; [|done].
  apply IH, session_step; [done | done | by rewrite Hoff].
Qed.

Lemma runOffered_reachable (allowed : Action → Prop) (actions : list Action) :
  Forall allowed actions →
  runOffered initialSession actions = Some (runSession actions) →
  reachableBy allowed (run actions).
Proof.
  intros Hall Hrun. exists (runSession actions). split; [|done].
  apply (runOffered_session _ actions initialSession);
    [apply session_initial | done | done].
Qed.

(** An upload that settles at once is the choice of the file followed by
    the reports of its reader and of its worker, each offered in turn:
    [HandleFileUpload] stands for these events in a row. *)
Lemma handleFileUpload_events (s : Session) (file : option File)
    (ocr : OcrOutcome) :
  runOffered s (uploadEvents s file ocr)
    = Some (step s (HandleFileUpload file ocr)).
Proof.
  destruct s as [st rs us]. unfold uploadEvents.
  cbn [runOffered offered enabled step handle].
  unfold fileChosen, handleFileUpload. cbn [current readers uploads].
  destruct file as [f|]; [|done]. destruct (isImage f); [|done].
  unfold processImage, processImageSettled.
  cbn [runOffered offered step current readers uploads].
  rewrite bool_decide_eq_true_2 by (rewrite length_app; simpl; lia).
  rewrite (list_lookup_middle rs [] (dataUrl f)) by done.
  rewrite (delete_middle rs [] (dataUrl f)), app_nil_r.
  destruct ocr as [|text throws];
    cbn [runOffered offered step current readers uploads].
  - rewrite (list_lookup_middle us [] (Recognizing (people st))) by done.
    by rewrite (delete_middle us [] (Recognizing (people st))), app_nil_r.
  - rewrite (list_lookup_middle us [] (Recognizing (people st))) by done.
    rewrite insert_app_r_alt, Nat.sub_diag by done. cbn [insert list_insert].
    rewrite (list_lookup_middle us [] Terminating) by done.
    cbn [current readers uploads].
    by rewrite (delete_middle us [] Terminating), app_nil_r.
Qed.

(** So the sessions that use [HandleFileUpload] show no state that the
    sessions without it do not show. *)
Lemma reachable_by_events (st : State) :
  reachable st →
  reachableBy (λ a, ∀ file ocr, a ≠ HandleFileUpload file ocr) st.
Proof.
  intros (s & Hs & <-). exists s. split; [|done].
  induction Hs as [|s a _ IH _ Hoff]; [apply session_initial|].
  destruct a as [| | |file ocr| | | | | | | |];
    try (by apply session_step).
  apply (runOffered_session _ (uploadEvents s file ocr) s); [done| |].
  - unfold uploadEvents. apply Forall_cons. split; [done|].
    destruct file as [f|]; [|by apply Forall_nil].
    destruct (isImage f); [|by apply Forall_nil].
    apply Forall_cons. split; [done|].
    destruct ocr; repeat (apply Forall_cons; split; [done|]);
      by apply Forall_nil.
  - apply handleFileUpload_events.
Qed.

Lemma runWhen_session (allowed : Session → Action → bool)
    (actions : list Action) (s s' : Session) :
  sessionWhen allowed s → runWhen allowed s actions = Some s' →
  sessionWhen allowed s'.
Proof.
  revert s. induction actions as [|a actions IH]; intros s Hs; cbn [runWhen].
  { by intros [= <-]. }
  destruct (allowed s a) eqn:Ha; [|done].
  destruct (offered s a) eqn:Hoff; [|done]. cbn [andb].
  apply IH, sessionWhen_step; [done | by rewrite Ha | by rewrite Hoff].
Qed.

Lemma runWhen_reachable (allowed : Session → Action → bool)
    (actions : list Action) :
  runWhen allowed initialSession actions = Some (runSession actions) →
  reachableWhen allowed (run actions).
Proof.
  intros Hrun. exists (runSession actions). split; [|done].
  apply (runWhen_session _ actions initialSession);
    [apply sessionWhen_initial | done].
Qed.

(** The state after a closed list of events is reachable when each event
    is allowed and offered in turn. *)
Ltac session :=
  unfold reachable, reachableByPeopleActions;
  lazymatch goal with
  | |- reachableBy _ (run ?actions) =>
      apply (runOffered_reachable _ actions);
      [by repeat constructor | by vm_compute]
  | |- reachableWhen _ (run ?actions) =>
      apply (runWhen_reachable _ actions); by vm_compute
  end.


(** ** Arithmetic of numbers *)

(** Laws of the exact addition.  Commutativity and the unit hold of
    binary64 addition too; associativity does not, and what is derived
    from it below is used for facts that do not depend on the order in
    which a sum is rounded, or is stated as a fact of the exact
    arithmetic. *)
Section NumberLaws.
Import Number.

Lemma add_comm (x y : number) : add x y = add y x.
Proof. destruct x, y; simpl; try done. by rewrite Qcplus_comm. Qed.

Lemma add_assoc (x y z : number) : add x (add y z) = add (add x y) z.
Proof. destruct x, y, z; simpl; try done. by rewrite Qcplus_assoc. Qed.

Lemma add_zero_l (x : number) : add zero x = x.
Proof. destruct x; simpl; try done. by rewrite Qcplus_0_l. Qed.

Lemma add_zero_r (x : number) : add x zero = x.
Proof. by rewrite add_comm, add_zero_l. Qed.

Lemma add_isFinite (x y : number) :
  isFinite x → isFinite y → isFinite (add x y).
Proof. by destruct x, y. Qed.

Lemma of_nat_nonzero (n : nat) : n ≠ 0 → Qc_of_Z (Z.of_nat n) ≠ 0%Qc.
Proof.
  intros Hn Heq. apply Hn.
  rewrite <-Z2Qc_inj_0 in Heq. apply Z2Qc_inj in Heq. lia.
Qed.

Lemma of_nat_nonneg (n : nat) : ¬ (Qc_of_Z (Z.of_nat n) < 0)%Qc.
Proof.
  apply Qcle_not_lt. rewrite <-Z2Qc_inj_0.
  apply (proj1 (Z2Qc_inj_le 0 (Z.of_nat n))). lia.
Qed.

(** A finite amount divided by a non-zero length is finite. *)
Lemma div_length_isFinite (x : number) (n : nat) :
  isFinite x → n ≠ 0 → isFinite (div x (of_nat n)).
Proof.
  intros Hx Hn. destruct x as [q| | |]; try done. simpl.
  rewrite bool_decide_eq_false_2 by by apply of_nat_nonzero. done.
Qed.

End NumberLaws.

(** ** Removing a person *)

Lemma removePerson_blocked (id : jsstring) (st : State) :
  length (people st) ≤ 2 → removePerson id st = st.
Proof.
  intros Hlen. unfold removePerson.
  rewrite bool_decide_eq_false_2 by lia. done.
Qed.

Lemma removePerson_allowed (id : jsstring) (st : State) :
  2 < length (people st) →
  people (removePerson id st) = filter (λ p, Person.id p ≠ id) (people st) ∧
  items (removePerson id st) =
    (λ item, mkBillItem (description item) (amount item) (includedInSplit item)
               (filter (λ personId, personId ≠ id) (assignedTo item)))
      <$> items st.
Proof.
  intros Hlen. unfold removePerson.
  rewrite bool_decide_eq_true_2 by lia. done.
Qed.

(** C8: when more than two people exist, [removePerson id] leaves no item
    assigned to [id], keeps the other assignees of every item in their
    order, and changes neither the number of items nor the description,
    the amount or the inclusion flag of any of them. *)
Theorem removePerson_prunes_assignments (id : jsstring) (st : State) :
  2 < length (people st) →
  length (items (removePerson id st)) = length (items st) ∧
  ∀ (i : nat) (item : BillItem), items st !! i = Some item →
    ∃ item', items (removePerson id st) !! i = Some item' ∧
      (id ∉ assignedTo item') ∧
      (assignedTo item' `sublist_of` assignedTo item) ∧
      (∀ q, q ≠ id → q ∈ assignedTo item → q ∈ assignedTo item') ∧
      assignedTo item' = filter (λ q, q ≠ id) (assignedTo item) ∧
      description item' = description item ∧
      amount item' = amount item ∧
      includedInSplit item' = includedInSplit item.
Proof.
  intros Hlen. destruct (removePerson_allowed id st Hlen) as [_ Hitems].
  rewrite Hitems. split; [by rewrite length_fmap|].
  intros i item Hi. eexists. split.
  { rewrite list_lookup_fmap, Hi. reflexivity. }
  simpl. repeat split.
  - rewrite list_elem_of_filter. by intros [? _].
  - apply sublist_filter.
  - intros q Hq Hin. apply list_elem_of_filter. done.
Qed.

Lemma removePerson_prunes_assignments_witness :
  let id := lit "2" in
  let st :=
    setItems
      [mkBillItem (lit "Item 1") (Fin (Q2Qc 20)) true [lit "1"; lit "2"; lit "3"];
       mkBillItem (lit "Tip") (Fin (Q2Qc 5)) false [lit "2"]]
      (addPerson initialState) in
  2 < length (people st) ∧
  length (items (removePerson id st)) = length (items st) ∧
  ∀ (i : nat) (item : BillItem), items st !! i = Some item →
    ∃ item', items (removePerson id st) !! i = Some item' ∧
      (id ∉ assignedTo item') ∧
      (assignedTo item' `sublist_of` assignedTo item) ∧
      (∀ q, q ≠ id → q ∈ assignedTo item → q ∈ assignedTo item') ∧
      assignedTo item' = filter (λ q, q ≠ id) (assignedTo item) ∧
      description item' = description item ∧
      amount item' = amount item ∧
      includedInSplit item' = includedInSplit item.
Proof.
  intros id st.
  assert (Hlen : 2 < length (people st)) by (vm_compute; lia).
  split; [exact Hlen|].
  exact (removePerson_prunes_assignments id st Hlen).
Defined.

(** ** The price pattern matches price tokens *)

Lemma class_sound (f : char → bool) (s m r : jsstring) :
  (m, r) ∈ Regex.class f s → ∃ c, f c ∧ m = [c] ∧ s = c :: r.
Proof.
  unfold Regex.class. destruct s as [|c s]; [by intros ?%elem_of_nil|].
  destruct (f c) eqn:Hc; [|by intros ?%elem_of_nil].
  intros [= -> ->]%list_elem_of_singleton. exists c. by rewrite Hc.
Qed.

Lemma star_sound (f : char → bool) (s m r : jsstring) :
  (m, r) ∈ Regex.star f s → Forall f m ∧ s = m ++ r.
Proof.
  revert m r. induction s as [|c s IH]; intros m r; simpl.
  { by intros [= -> ->]%list_elem_of_singleton. }
  destruct (f c) eqn:Hc.
  - rewrite elem_of_app, list_elem_of_fmap, list_elem_of_singleton.
    intros [([m' r'] & [= -> ->] & Hin)|[= -> ->]]; [|done].
    destruct (IH _ _ Hin) as [Hall ->].
    split; [|done]. constructor; [by rewrite Hc | done].
  - by intros [= -> ->]%list_elem_of_singleton.
Qed.

Lemma seq_sound (p q : Regex.pattern) (s m r : jsstring) :
  (m, r) ∈ Regex.seq p q s →
  ∃ m1 r1 m2, (m1, r1) ∈ p s ∧ (m2, r) ∈ q r1 ∧ m = m1 ++ m2.
Proof.
  unfold Regex.seq. rewrite list_elem_of_bind.
  intros ([m1 r1] & Hin & H1). apply list_elem_of_bind in Hin.
  destruct Hin as ([m2 r2] & [= -> ->]%list_elem_of_singleton & H2).
  by exists m1, r1, m2.
Qed.

Lemma amountGroup_sound (s g r : jsstring) :
  (g, r) ∈ Regex.amountGroup s → tokenShape g.
Proof.
  unfold Regex.amountGroup.
  intros (ip & r1 & fp & Hip & Hfp & ->)%seq_sound.
  apply seq_sound in Hip as (m1 & r0 & m2 & Hc & Hstar & ->).
  apply class_sound in Hc as (c & Hc & -> & ->).
  apply star_sound in Hstar as [Hall ->].
  exists ([c] ++ m2). split; [done|]. split; [by constructor|].
  unfold Regex.opt in Hfp. apply elem_of_app in Hfp as [Hfp|Hfp].
  - right. apply seq_sound in Hfp as (dot & r2 & dd & Hdot & Hdd & ->).
    apply class_sound in Hdot as (c0 & Hc0 & -> & _).
    apply seq_sound in Hdd as (x1 & r3 & x2 & Hx1 & Hx2 & ->).
    apply class_sound in Hx1 as (d1 & Hd1 & -> & _).
    apply class_sound in Hx2 as (d2 & Hd2 & -> & _).
    exists d1, d2. split; [done|]. split; [done|].
    unfold Regex.isDot in Hc0. apply Is_true_true, N.eqb_eq in Hc0.
    subst c0. reflexivity.
  - left. apply list_elem_of_singleton in Hfp as [= -> _]. by rewrite app_nil_r.
Qed.

Lemma priceAt_sound (s whole g : jsstring) :
  (whole, g) ∈ Regex.priceAt s → tokenShape g.
Proof.
  unfold Regex.priceAt. intros Hin.
  apply list_elem_of_bind in Hin as ([m0 r0] & Hin & _).
  apply list_elem_of_bind in Hin as ([m1 r1] & Hin & _).
  apply list_elem_of_bind in Hin as ([g' r2] & Hin & Hg).
  apply list_elem_of_bind in Hin as ([e1 e2] & Hin & _).
  apply list_elem_of_singleton in Hin as [= _ ->].
  by eapply amountGroup_sound.
Qed.

Lemma priceMatch_sound (s whole g : jsstring) :
  Regex.priceMatch s = Some (whole, g) → tokenShape g.
Proof.
  induction s as [|c s IH]; [done|].
  change (Regex.priceMatch (c :: s))
    with (match head (Regex.priceAt (c :: s)) with
          | Some r => Some r
          | None => Regex.priceMatch s
          end).
  destruct (head (Regex.priceAt (c :: s))) as [r|] eqn:Hhead; [|done].
  intros [= ->]. by eapply priceAt_sound, head_Some_elem_of.
Qed.

(** ** Parsing a price token *)

Lemma isDigit_cases (c : char) :
  isDigit c →
  (c = 48 ∨ c = 49 ∨ c = 50 ∨ c = 51 ∨ c = 52 ∨ c = 53 ∨ c = 54 ∨ c = 55
   ∨ c = 56 ∨ c = 57)%N.
Proof.
  unfold isDigit. intros [H1%Is_true_true%N.leb_le H2%Is_true_true%N.leb_le]%andb_True.
  lia.
Qed.

(** On a string that starts with a digit, [parseFloat] finds no white
    space, no sign and no [Infinity]. *)
Lemma parseFloat_digit_start (c : char) (r : jsstring) :
  isDigit c →
  parseFloat (c :: r) =
    let '(ip, r1) := span isDigit (c :: r) in
    let '(fp, r2) :=
      match r1 with
      | 46%N :: r => span isDigit r
      | _ => ([], r1)
      end in
    match ip ++ fp with
    | [] => NaN
    | ds =>
        Fin (Q2Qc (inject_Z (Number.digitsValue ds)
                   * (10 # 1) ^ (Number.exponentPart r2
                                 - Z.of_nat (length fp))))
    end.
Proof.
  intros Hc. destruct (isDigit_cases c Hc) as [->|[->|[->|[->|[->|[->|[->|[->|[->| ->]]]]]]]]];
    reflexivity.
Qed.

Lemma span_digits (ip rest : jsstring) :
  Forall isDigit ip →
  match rest with c :: _ => isDigit c = false | [] => True end →
  span isDigit (ip ++ rest) = (ip, rest).
Proof.
  intros Hip Hrest. induction Hip as [|c ip Hc _ IH]; cbn [app span].
  - destruct rest as [|c rest]; [done|]. cbn [span]. by rewrite Hrest.
  - apply Is_true_true in Hc. by rewrite Hc, IH.
Qed.

Lemma digitsValue_two_more (ip : jsstring) (d1 d2 : char) :
  Number.digitsValue (ip ++ [d1; d2])
    = (100 * Number.digitsValue ip + Number.digitsValue [d1; d2])%Z.
Proof. unfold Number.digitsValue. rewrite foldl_app. simpl. lia. Qed.

Lemma Q2Qc_inject_Z (z : Z) : Q2Qc (inject_Z z * (10 # 1) ^ 0) = Qc_of_Z z.
Proof.
  apply Qc_is_canon. cbn [this Q2Qc Qc_of_Z]. rewrite Qred_correct.
  change ((10 # 1) ^ 0)%Q with 1%Q. ring.
Qed.

Lemma Q2Qc_hundredths (a b : Z) :
  Q2Qc (inject_Z (100 * a + b) * (10 # 1) ^ (-2))
    = (Qc_of_Z a + Qc_of_Z b / Q2Qc 100)%Qc.
Proof.
  apply Qc_is_canon. unfold Qcplus, Qcdiv, Qcmult, Qcinv.
  cbn [this Q2Qc Qc_of_Z]. rewrite !Qred_correct.
  rewrite inject_Z_plus, inject_Z_mult.
  change ((10 # 1) ^ (-2))%Q with (1 # 100)%Q.
  change (/ 100)%Q with (1 # 100)%Q.
  change (inject_Z 100) with (100 # 1)%Q. ring.
Qed.

(** [parseFloat] reads a price token as the amount it writes. *)
Lemma parseFloat_token (g : jsstring) :
  tokenShape g → ∃ q : Qc, priceToken g q ∧ parseFloat g = Fin q.
Proof.
  intros (ip & Hne & Hip & Hg).
  destruct ip as [|c ip]; [done|]. pose proof (Forall_inv Hip) as Hc.
  destruct Hg as [->|(d1 & d2 & Hd1 & Hd2 & ->)].
  - exists (Qc_of_Z (Number.digitsValue (c :: ip))). split.
    { exists (c :: ip). split; [done|]. split; [done|]. by left. }
    rewrite parseFloat_digit_start by done.
    rewrite <-(app_nil_r (c :: ip)) at 1. rewrite span_digits by done.
    cbn [app length Number.exponentPart Z.of_nat Z.sub Z.opp Z.add].
    rewrite app_nil_r. by rewrite Q2Qc_inject_Z.
  - exists (Qc_of_Z (Number.digitsValue (c :: ip))
            + Qc_of_Z (Number.digitsValue [d1; d2]) / Q2Qc 100)%Qc. split.
    { exists (c :: ip). split; [done|]. split; [done|]. right.
      by exists d1, d2. }
    rewrite <-app_comm_cons, parseFloat_digit_start by done.
    rewrite app_comm_cons, span_digits by done.
    assert (span isDigit [d1; d2] = ([d1; d2], [])) as ->.
    { apply (span_digits [d1; d2] []); [by repeat constructor | done]. }
    cbn [app length Number.exponentPart].
    rewrite (app_comm_cons ip [d1; d2] c), digitsValue_two_more.
    by rewrite <-Q2Qc_hundredths.
Qed.

(** ** Extraction *)

Lemma priceAccepted_nested (price : number) :
  priceAccepted price =
    if negb (Number.isNaN price) && Number.gt price Number.zero then
      if Number.ge price (Fin (Q2Qc (1 # 2)))
         && Number.le price (Fin (Q2Qc 1000))
      then true else false
    else false.
Proof. unfold priceAccepted. by repeat case_match. Qed.

(** What one iteration appends to [prices]. *)
Lemma scanLine_spec (prices : list jsstring) (line : jsstring) :
  scanLine prices line =
    prices ++ filter (λ c, priceAccepted (parseFloat c))
                (option_list (candidate line)).
Proof.
  unfold scanLine, candidate.
  destruct (Regex.priceMatch (trim line)) as [[whole priceStr]|].
  2: { cbn. by rewrite app_nil_r. }
  change (option_list (snd <$> Some (whole, priceStr))) with [priceStr].
  rewrite filter_cons, filter_nil, priceAccepted_nested.
  destruct (negb _ && Number.gt _ _);
    [destruct (Number.ge _ _ && Number.le _ _)|];
    case_decide; try done; by rewrite app_nil_r.
Qed.

Lemma foldl_scanLine (lines : list jsstring) (prices : list jsstring) :
  foldl scanLine prices lines =
    prices ++ filter (λ c, priceAccepted (parseFloat c)) (omap candidate lines).
Proof.
  revert prices. induction lines as [|line lines IH]; intros prices; simpl.
  { by rewrite app_nil_r. }
  rewrite IH, scanLine_spec, <-app_assoc. f_equal.
  destruct (candidate line) as [c|]; simpl; [|done].
  by rewrite !filter_cons, filter_nil; case_decide.
Qed.

(** The loop collects the surviving candidates. *)
Lemma collectPrices_spec (text : jsstring) :
  collectPrices text = survivingCandidates text.
Proof. unfold collectPrices. by rewrite foldl_scanLine. Qed.

Lemma priceAccepted_range (price : number) :
  priceAccepted price →
  ∃ q : Qc, price = Fin q ∧ (Q2Qc (1 # 2) ≤ q)%Qc ∧ (q ≤ Q2Qc 1000)%Qc.
Proof.
  unfold priceAccepted. rewrite !andb_True.
  intros [[_ _] [Hge Hle]]. destruct price as [q| | |]; try done.
  exists q. split; [done|].
  split; [exact (bool_decide_unpack _ Hge) | exact (bool_decide_unpack _ Hle)].
Qed.

Lemma survivingCandidates_accepted (text c : jsstring) :
  c ∈ survivingCandidates text → priceAccepted (parseFloat c).
Proof. unfold survivingCandidates. rewrite list_elem_of_filter. by intros [? _]. Qed.

Lemma extractItems_found (people0 : list Person) (text : jsstring)
    (st : State) :
  survivingCandidates text ≠ [] →
  extractItems people0 text st =
    setItems (newItems people0 (survivingCandidates text)) st.
Proof.
  intros Hne. unfold extractItems. rewrite collectPrices_spec.
  rewrite bool_decide_eq_true_2; [done|].
  destruct (survivingCandidates text); simpl; [done | lia].
Qed.

Lemma extractItems_none (people0 : list Person) (text : jsstring)
    (st : State) :
  survivingCandidates text = [] →
  extractItems people0 text st = setError (Some noPricesFound) st.
Proof.
  intros Hnil. unfold extractItems. rewrite collectPrices_spec, Hnil.
  by rewrite bool_decide_eq_false_2 by (simpl; lia).
Qed.

Lemma extractItems_frame (people0 : list Person) (text : jsstring)
    (st : State) :
  people (extractItems people0 text st) = people st ∧
  isProcessing (extractItems people0 text st) = isProcessing st ∧
  imagePreview (extractItems people0 text st) = imagePreview st ∧
  (error (extractItems people0 text st) =
     if bool_decide (collectPrices text = []) then Some noPricesFound
     else error st) ∧
  (items (extractItems people0 text st) =
     if bool_decide (collectPrices text = []) then items st
     else newItems people0 (collectPrices text)).
Proof.
  unfold extractItems. destruct (collectPrices text) as [|p l]; [done|].
  rewrite bool_decide_eq_true_2 by (simpl; lia).
  by rewrite bool_decide_eq_false_2.
Qed.

Lemma handleFileUpload_people (file : option File) (ocr : OcrOutcome)
    (st : State) :
  people (handleFileUpload file ocr st) = people st.
Proof.
  unfold handleFileUpload. destruct file as [f|]; [|done].
  destruct (isImage f); [|done]. unfold processImage, processImageSettled.
  destruct ocr as [|text throws]; [done|].
  destruct (extractItems_frame (people st) text
    (readerOnload (dataUrl f) (processImageStart st))) as [Hp _].
  by destruct throws.
Qed.

Lemma survivingCandidates_token (text c : jsstring) :
  c ∈ survivingCandidates text → tokenShape c.
Proof.
  unfold survivingCandidates. rewrite list_elem_of_filter.
  intros [_ (line & _ & Hc)%list_elem_of_omap]. unfold candidate in Hc.
  destruct (Regex.priceMatch (trim line)) as [[whole g]|] eqn:Hm; [|done].
  injection Hc as <-. by eapply priceMatch_sound.
Qed.

(** When at least one candidate survives, the items that [processImage]
    sets when it resumes with the text are the surviving candidates, one
    item each and in their order; the item at position [k] (from 0) is
    described as Item [k + 1], is included in the split, and its amount
    is the candidate parsed: the amount the token writes, a number
    between 0.50 and 1000 inclusive.  It is assigned to the ids of
    [people0], the people of the render that started the upload, whoever
    the people are by then. *)
Lemma extractItems_output_shape (people0 : list Person) (text : jsstring)
    (st : State) :
  survivingCandidates text ≠ [] →
  people (extractItems people0 text st) = people st ∧
  length (items (extractItems people0 text st))
    = length (survivingCandidates text) ∧
  ∀ (k : nat) (c : jsstring), survivingCandidates text !! k = Some c →
    ∃ (item : BillItem) (q : Qc),
      items (extractItems people0 text st) !! k = Some item ∧
      description item = lit "Item " ++ toString (k + 1) ∧
      includedInSplit item = true ∧
      assignedTo item = Person.id <$> people0 ∧
      amount item = parseFloat c ∧
      parseFloat c = Fin q ∧
      priceToken c q ∧
      (Q2Qc (1 # 2) ≤ q)%Qc ∧ (q ≤ Q2Qc 1000)%Qc.
Proof.
  intros Hne. rewrite extractItems_found by done. cbn [items people setItems].
  unfold newItems. split; [done|]. split; [by rewrite length_imap|].
  intros k c Hk. pose proof (list_elem_of_lookup_2 _ _ _ Hk) as Hc.
  destruct (priceAccepted_range (parseFloat c)) as (q & Hq & Hlo & Hhi).
  { by eapply survivingCandidates_accepted. }
  destruct (parseFloat_token c) as (q' & Htoken & Hq').
  { by eapply survivingCandidates_token. }
  assert (q' = q) as -> by congruence.
  eexists _, q. rewrite list_lookup_imap, Hk. cbn.
  repeat split; done.
Qed.

(** C4 fails on the code: a third person is added, an image is chosen
    and, while the worker recognises it, person 3 is removed.  When the
    text arrives its one candidate survives, and the item is assigned to
    the ids 1, 2 and 3 of the render that started the upload, while the
    people at that time, and afterwards, have the ids 1 and 2. *)
Theorem extraction_assigns_removed_person :
  let text := lit "20.00" in
  let before := run [AddPerson; FileChosen (Some imageFile);
                     RemovePerson (lit "3")] in
  let st := run [AddPerson; FileChosen (Some imageFile);
                 RemovePerson (lit "3"); OcrSettles 0 (Some text)] in
  reachable st ∧
  survivingCandidates text = [lit "20.00"] ∧
  Person.id <$> people before = [lit "1"; lit "2"] ∧
  people st = people before ∧
  items st = [mkBillItem (lit "Item 1") (parseFloat (lit "20.00")) true
                [lit "1"; lit "2"; lit "3"]] ∧
  ¬ Forall (λ item, assignedTo item = Person.id <$> people before) (items st).
Proof.
  intros text before st. split; [subst st; session|].
  split; [by vm_compute|]. split; [by vm_compute|]. split; [by vm_compute|].
  assert (items st = [mkBillItem (lit "Item 1") (parseFloat (lit "20.00")) true
                        [lit "1"; lit "2"; lit "3"]]) as Hitems by by vm_compute.
  split; [exact Hitems|]. rewrite Hitems.
  intros Hall. apply Forall_cons_1 in Hall as [Heq _]. by vm_compute in Heq.
Qed.

(** C5: when no candidate survives, extraction reports that no prices
    were found and the items are those of before. *)
Theorem extraction_without_prices (text dataUrl : jsstring) (st : State) :
  survivingCandidates text = [] →
  error (processImage dataUrl (Recognized text false) st) = Some noPricesFound ∧
  items (processImage dataUrl (Recognized text false) st) = items st ∧
  people (processImage dataUrl (Recognized text false) st) = people st.
Proof.
  intros Hnil. unfold processImage, processImageSettled.
  by rewrite extractItems_none.
Qed.

Lemma extraction_without_prices_witness :
  let text := receipt ["Thank you!"; "Total: $12.50 USD"; "0.10"; "1500.00"] in
  let dataUrl := dataUrl imageFile in
  let st :=
    setItems [mkBillItem (lit "Item 1") (Fin (Q2Qc 20)) true [lit "1"; lit "2"]]
      initialState in
  survivingCandidates text = [] ∧
  error (processImage dataUrl (Recognized text false) st) = Some noPricesFound ∧
  items (processImage dataUrl (Recognized text false) st) = items st ∧
  people (processImage dataUrl (Recognized text false) st) = people st.
Proof.
  intros text dataUrl st.
  assert (Hnil : survivingCandidates text = []) by (vm_compute; reflexivity).
  split; [exact Hnil|].
  exact (extraction_without_prices text dataUrl st Hnil).
Defined.

(** C3 fails on the code: the line 12.505 matches the price pattern at
    its last three digits and yields an item of 505. *)
Theorem three_decimals_extracted :
  Regex.priceMatch (trim (lit "12.505")) = Some (lit "505", lit "505") ∧
  survivingCandidates (lit "12.505") = [lit "505"] ∧
  parseFloat (lit "505") = Fin (Q2Qc 505) ∧
  items (processImage (dataUrl imageFile) (Recognized (lit "12.505") false)
           initialState)
    = [mkBillItem (lit "Item 1") (parseFloat (lit "505")) true
         [lit "1"; lit "2"]].
Proof.
  split; [by vm_compute|]. split; [by vm_compute|]. split; [number_eq|].
  by vm_compute.
Qed.

(** ** Shares *)

Lemma includes_nonempty (l : list jsstring) (x : jsstring) :
  includes l x → length l ≠ 0.
Proof.
  unfold includes. intros Hin%bool_decide_unpack.
  destruct l; [by apply elem_of_nil in Hin | done].
Qed.

Lemma foldl_add_cons {A : Type} (f : A → number) (x : A) (l : list A) :
  foldl (λ sum a, Number.add sum (f a)) Number.zero (x :: l) =
    Number.add (f x) (foldl (λ sum a, Number.add sum (f a)) Number.zero l).
Proof.
  cbn [foldl]. rewrite add_zero_l.
  rewrite <-(add_zero_r (f x)) at 1. generalize Number.zero as acc.
  induction l as [|y l IH]; intros acc; cbn [foldl]; [done|].
  by rewrite <-add_assoc, IH.
Qed.

Lemma calculateTotal_cons (item : BillItem) (items : list BillItem) :
  calculateTotal (item :: items) =
    if includedInSplit item
    then Number.add (amount item) (calculateTotal items)
    else calculateTotal items.
Proof.
  unfold calculateTotal. rewrite filter_cons.
  destruct (includedInSplit item); case_decide; try done.
  apply foldl_add_cons.
Qed.

Lemma calculatePerPerson_cons (item : BillItem) (items : list BillItem)
    (personId : jsstring) :
  calculatePerPerson (item :: items) personId =
    if includedInSplit item && includes (assignedTo item) personId
    then Number.add
           (Number.div (amount item) (Number.of_nat (length (assignedTo item))))
           (calculatePerPerson items personId)
    else calculatePerPerson items personId.
Proof.
  unfold calculatePerPerson. rewrite filter_cons.
  destruct (includedInSplit item && includes (assignedTo item) personId);
    case_decide; try done.
  apply (foldl_add_cons (λ item, Number.div (amount item)
           (Number.of_nat (length (assignedTo item))))).
Qed.

Lemma calculatePerPerson_app (l1 l2 : list BillItem) (personId : jsstring) :
  calculatePerPerson (l1 ++ l2) personId =
    Number.add (calculatePerPerson l1 personId) (calculatePerPerson l2 personId).
Proof.
  induction l1 as [|item l1 IH]; [by rewrite add_zero_l|].
  rewrite <-app_comm_cons, !calculatePerPerson_cons, IH.
  destruct (_ && _); [by rewrite add_assoc | done].
Qed.

Lemma calculatePerPerson_isFinite (items : list BillItem) (personId : jsstring) :
  Forall (λ item, Number.isFinite (amount item)) items →
  Number.isFinite (calculatePerPerson items personId).
Proof.
  induction 1 as [|item items Hfin _ IH]; [done|].
  rewrite calculatePerPerson_cons.
  destruct (includedInSplit item && includes (assignedTo item) personId) eqn:Hc;
    [|done].
  apply andb_prop in Hc as [_ Hin].
  apply add_isFinite; [|done].
  apply div_length_isFinite; [done|].
  apply (includes_nonempty _ personId). by rewrite Hin.
Qed.

(** C9: an item with no assignee adds nothing to anyone's share, the
    lengths that [calculatePerPerson] divides by are never zero, and the
    share computed from finite amounts is finite: neither [NaN] nor an
    infinity appears. *)
Theorem empty_assignee_safety (personId : jsstring)
    (before after items : list BillItem) (item : BillItem) :
  (assignedTo item = [] →
   calculatePerPerson (before ++ item :: after) personId =
     calculatePerPerson (before ++ after) personId) ∧
  (∀ it, it ∈ items → includedInSplit it →
     includes (assignedTo it) personId →
     Number.of_nat (length (assignedTo it)) ≠ Number.zero) ∧
  (Forall (λ it, Number.isFinite (amount it)) items →
   Number.isFinite (calculatePerPerson items personId)).
Proof.
  split; [|split].
  - intros Hempty.
    rewrite !calculatePerPerson_app, calculatePerPerson_cons, Hempty.
    by rewrite andb_false_r.
  - intros it _ _ Hin%includes_nonempty Heq.
    injection Heq as Heq. lia.
  - apply calculatePerPerson_isFinite.
Qed.

Lemma empty_assignee_safety_witness :
  let personId := lit "1" in
  let before := [mkBillItem (lit "Item 1") (Fin (Q2Qc 20)) true [lit "1"; lit "2"]] in
  let item := mkBillItem (lit "Item 2") (Fin (Q2Qc 9)) true [] in
  let after := [mkBillItem (lit "Item 3") (Fin (Q2Qc 3)) true [lit "1"]] in
  let items := before ++ item :: after in
  assignedTo item = [] ∧
  Forall (λ it, Number.isFinite (amount it)) items ∧
  calculatePerPerson (before ++ item :: after) personId =
    calculatePerPerson (before ++ after) personId ∧
  Number.isFinite (calculatePerPerson items personId).
Proof.
  intros personId before item after items.
  assert (Hempty : assignedTo item = []) by reflexivity.
  assert (Hfin : Forall (λ it, Number.isFinite (amount it)) items)
    by by_evaluation.
  destruct (empty_assignee_safety personId before after items item)
    as (Hzero & _ & Hfinite).
  split; [exact Hempty|]. split; [exact Hfin|].
  split; [exact (Hzero Hempty) | exact (Hfinite Hfin)].
Defined.

(** ** Conservation of the split *)

(** The lemmas of this part are about the exact arithmetic: they say that
    the formula of the split is right, not that the rounded sums that the
    page shows are equal.  The session invariants further down state the
    part that rounding leaves alone: who is charged for each item, and
    for how many parts. *)

Lemma add_swap_l (x y z : number) :
  Number.add x (Number.add y z) = Number.add y (Number.add x z).
Proof. by rewrite !add_assoc, (add_comm x y). Qed.

(** [n] copies of a number, added up. *)
Lemma iter_add_Fin (n : nat) (r : Qc) :
  Nat.iter n (Number.add (Fin r)) Number.zero
    = Fin (Qc_of_Z (Z.of_nat n) * r)%Qc.
Proof.
  induction n as [|n IH].
  { change (Fin 0%Qc = Fin (Qc_of_Z 0 * r)%Qc).
    rewrite Z2Qc_inj_0. f_equal. ring. }
  rewrite Nat.iter_succ, IH. simpl Number.add. f_equal.
  rewrite Nat2Z.inj_succ, <-Z.add_1_r, Z2Qc_inj_add, Z2Qc_inj_1. ring.
Qed.

Lemma iter_add_absorbing (n : nat) (x : number) :
  n ≠ 0 → Number.isFinite x = false →
  Nat.iter n (Number.add x) Number.zero = x.
Proof.
  intros Hn Hx. destruct n as [|n]; [done|]. clear Hn.
  induction n as [|n IH]; [by rewrite Nat.iter_succ, add_zero_r|].
  rewrite Nat.iter_succ, IH. by destruct x.
Qed.

(** In exact arithmetic, dividing by a non-zero length and adding up that
    many parts gives the amount back. *)
Lemma iter_add_div (n : nat) (x : number) :
  n ≠ 0 →
  Nat.iter n (Number.add (Number.div x (Number.of_nat n))) Number.zero = x.
Proof.
  intros Hn. destruct x as [q| | |]; simpl.
  - rewrite bool_decide_eq_false_2 by by apply of_nat_nonzero.
    rewrite iter_add_Fin. f_equal. apply Qcmult_div_r. by apply of_nat_nonzero.
  - by apply iter_add_absorbing.
  - rewrite bool_decide_eq_false_2 by apply of_nat_nonneg.
    by apply iter_add_absorbing.
  - rewrite bool_decide_eq_false_2 by apply of_nat_nonneg.
    by apply iter_add_absorbing.
Qed.

Lemma sumOfShares_cons (p : Person) (people : list Person)
    (items : list BillItem) :
  sumOfShares (p :: people) items =
    Number.add (calculatePerPerson items (Person.id p))
      (sumOfShares people items).
Proof.
  apply (foldl_add_cons (λ p, calculatePerPerson items (Person.id p))).
Qed.

Lemma sumOfShares_no_items (people : list Person) :
  sumOfShares people [] = Number.zero.
Proof.
  induction people as [|p people IH]; [done|].
  by rewrite sumOfShares_cons, IH.
Qed.

(** The shares of one more item: as many parts of it as there are people
    among its assignees. *)
Lemma sumOfShares_cons_item (people : list Person) (item : BillItem)
    (items : list BillItem) :
  sumOfShares people (item :: items) =
    Number.add
      (if includedInSplit item then
         Nat.iter (length (filter (λ p, Person.id p ∈ assignedTo item) people))
           (Number.add (Number.div (amount item)
                          (Number.of_nat (length (assignedTo item)))))
           Number.zero
       else Number.zero)
      (sumOfShares people items).
Proof.
  induction people as [|p people IH].
  { unfold sumOfShares. simpl. by destruct (includedInSplit item). }
  rewrite !sumOfShares_cons, IH, calculatePerPerson_cons, filter_cons.
  unfold includes. destruct (includedInSplit item); cbn [andb].
  - case_decide.
    + rewrite bool_decide_eq_true_2 by done. cbn [length Nat.iter nat_rect].
      rewrite <-!add_assoc. f_equal. apply add_swap_l.
    + rewrite bool_decide_eq_false_2 by done. apply add_swap_l.
  - apply add_swap_l.
Qed.

(** Conservation in exact arithmetic, under the weakest condition on each
    included item: as many people of the session are among its assignees
    as it has assignees. *)
Lemma shares_sum_counting (people : list Person) (items : list BillItem) :
  (∀ item, item ∈ items → includedInSplit item →
     assignedTo item ≠ [] ∧
     length (filter (λ p, Person.id p ∈ assignedTo item) people)
       = length (assignedTo item)) →
  sumOfShares people items = calculateTotal items.
Proof.
  induction items as [|item items IH]; intros Hitems.
  { apply sumOfShares_no_items. }
  rewrite sumOfShares_cons_item, calculateTotal_cons, IH.
  2: { intros it Hit. apply Hitems. by right. }
  destruct (includedInSplit item) eqn:Hinc; [|by rewrite add_zero_l].
  destruct (Hitems item) as [Hne ->]; [by left | by rewrite Hinc |].
  rewrite iter_add_div; [done|]. by destruct (assignedTo item).
Qed.

Lemma fmap_filter_id (people : list Person) (ids : list jsstring) :
  Person.id <$> filter (λ p, Person.id p ∈ ids) people
    = filter (λ i, i ∈ ids) (Person.id <$> people).
Proof.
  induction people as [|p people IH]; [done|].
  rewrite fmap_cons, !filter_cons. case_decide; by rewrite ?fmap_cons, IH.
Qed.

Lemma assignees_counted (people : list Person) (ids : list jsstring) :
  NoDup (Person.id <$> people) → NoDup ids → ids ⊆ Person.id <$> people →
  length (filter (λ p, Person.id p ∈ ids) people) = length ids.
Proof.
  intros Hpeople Hids Hsub.
  rewrite <-(length_fmap Person.id), fmap_filter_id.
  apply Permutation_length, NoDup_Permutation; [by apply NoDup_filter | done |].
  intros i. rewrite list_elem_of_filter.
  split; [by intros [? _] | intros Hi; split; [done | by apply Hsub]].
Qed.

(** In exact arithmetic: when the ids of the people are pairwise distinct
    and every included item is assigned to a non-empty list of distinct
    ids of people listed, the shares of the people add up to the total.
    With binary64 the two sides can differ in the last digits. *)
Lemma split_is_conserved (people : list Person) (items : list BillItem) :
  NoDup (Person.id <$> people) →
  Forall (λ item, includedInSplit item →
            assignedTo item ≠ [] ∧ NoDup (assignedTo item) ∧
            assignedTo item ⊆ Person.id <$> people) items →
  sumOfShares people items = calculateTotal items.
Proof.
  intros Hpeople Hitems. apply shares_sum_counting.
  intros item Hin Hinc. rewrite Forall_forall in Hitems.
  destruct (Hitems item Hin Hinc) as (Hne & Hnodup & Hsub).
  split; [done|]. by apply assignees_counted.
Qed.

(** C1 fails on the code: the session below is reachable, two of its
    people have the id 3, its only item is included and assigned to 2 and
    3, and the three shares are 10 each: they add up to 30 for a total of
    20.  Halving 20 and adding 10 three times is exact in binary64 as
    well. *)
Theorem split_not_conserved :
  let st := run [AddPerson; RemovePerson (lit "1"); AddPerson;
                 HandleFileUpload (Some imageFile) (Recognized (lit "20.00") false);
                 ToggleItemAssignment 0 (lit "3");
                 ToggleItemAssignment 0 (lit "3")] in
  reachable st ∧
  Person.id <$> people st = [lit "2"; lit "3"; lit "3"] ∧
  items st = [mkBillItem (lit "Item 1") (parseFloat (lit "20.00")) true
                [lit "2"; lit "3"]] ∧
  Forall (λ item, includedInSplit item → assignedTo item ≠ []) (items st) ∧
  (λ p, calculatePerPerson (items st) (Person.id p)) <$> people st
    = [Fin (Q2Qc 10); Fin (Q2Qc 10); Fin (Q2Qc 10)] ∧
  calculateTotal (items st) = Fin (Q2Qc 20) ∧
  sumOfShares (people st) (items st) = Fin (Q2Qc 30) ∧
  sumOfShares (people st) (items st) ≠ calculateTotal (items st).
Proof.
  intros st. split; [subst st; session|].
  split; [by vm_compute|]. split; [by vm_compute|].
  split; [by_evaluation|].
  split; [number_eq|].
  split; [number_eq|]. split; [number_eq|].
  intros H. vm_compute in H. discriminate H.
Qed.

(** The shares fall short of the total as well when an item is assigned
    to somebody who is not listed, as after a removal while the worker
    recognises: two people are listed, the item is divided in three, and
    the part of person 3 is paid by nobody. *)
Lemma split_not_conserved_unknown_assignee :
  let st := run [AddPerson; FileChosen (Some imageFile);
                 RemovePerson (lit "3");
                 OcrSettles 0 (Some (lit "20.00"))] in
  reachable st ∧
  Forall (λ item, includedInSplit item → assignedTo item ≠ []) (items st) ∧
  calculateTotal (items st) = Fin (Q2Qc 20) ∧
  Number.lt (sumOfShares (people st) (items st)) (Fin (Q2Qc 14)).
Proof.
  intros st. split; [subst st; session|]. split; [by_evaluation|].
  split; [number_eq | by vm_compute].
Qed.

(** ** Toggling an assignment *)

Lemma toggleAssignment_fields (personId : jsstring) (item : BillItem) :
  description (toggleAssignment personId item) = description item ∧
  amount (toggleAssignment personId item) = amount item ∧
  includedInSplit (toggleAssignment personId item) = includedInSplit item.
Proof. unfold toggleAssignment. by repeat case_match. Qed.

Lemma toggleAssignment_remove (personId : jsstring) (item : BillItem) :
  personId ∈ assignedTo item → 1 < length (assignedTo item) →
  assignedTo (toggleAssignment personId item)
    = filter (λ id, id ≠ personId) (assignedTo item).
Proof.
  intros Hin Hlen. unfold toggleAssignment, includes.
  by rewrite !bool_decide_eq_true_2.
Qed.

Lemma toggleAssignment_sole (personId : jsstring) (item : BillItem) :
  assignedTo item = [personId] → toggleAssignment personId item = item.
Proof.
  intros Heq. unfold toggleAssignment, includes. rewrite Heq.
  rewrite bool_decide_eq_true_2 by by left.
  by rewrite bool_decide_eq_false_2 by (simpl; lia).
Qed.

Lemma toggleAssignment_add (personId : jsstring) (item : BillItem) :
  personId ∉ assignedTo item →
  assignedTo (toggleAssignment personId item) = assignedTo item ++ [personId].
Proof.
  intros Hnot. unfold toggleAssignment, includes.
  by rewrite bool_decide_eq_false_2.
Qed.

Lemma filter_ne_absent (x : jsstring) (l : list jsstring) :
  x ∉ l → filter (λ id, id ≠ x) l = l.
Proof.
  induction l as [|z l IH]; [done|].
  intros [Hz Hx]%not_elem_of_cons.
  rewrite filter_cons, decide_True by done. f_equal. by apply IH.
Qed.

(** Removing one id from a list without repetition shortens it by one. *)
Lemma filter_ne_length (x : jsstring) (l : list jsstring) :
  NoDup l → x ∈ l → S (length (filter (λ id, id ≠ x) l)) = length l.
Proof.
  induction 1 as [|y l Hy Hl IH]; intros Hin; [by apply elem_of_nil in Hin|].
  rewrite filter_cons. destruct (decide (y = x)) as [->|Hne].
  - rewrite decide_False by (intros H; by apply H).
    by rewrite filter_ne_absent.
  - rewrite decide_True by done. simpl. f_equal. apply IH.
    apply elem_of_cons in Hin as [->|Hin]; done.
Qed.

Lemma toggleAssignment_nonempty (personId : jsstring) (item : BillItem) :
  NoDup (assignedTo item) → assignedTo (toggleAssignment personId item) ≠ [].
Proof.
  intros Hnodup. destruct (decide (personId ∈ assignedTo item)) as [Hin|Hnot].
  - destruct (decide (1 < length (assignedTo item))) as [Hlen|Hlen].
    + rewrite toggleAssignment_remove by done.
      pose proof (filter_ne_length personId _ Hnodup Hin) as Hcount.
      intros Hnil. rewrite Hnil in Hcount. simpl in Hcount. lia.
    + unfold toggleAssignment, includes.
      rewrite bool_decide_eq_true_2, bool_decide_eq_false_2 by done.
      intros Hnil. rewrite Hnil in Hin. by apply elem_of_nil in Hin.
  - rewrite toggleAssignment_add by done. by destruct (assignedTo item).
Qed.

(** The three cases of [toggleItemAssignment] on the item of row [i], as
    the code takes them: the guard counts the entries of the list, and
    the filter drops every entry equal to [personId].  The other rows,
    the other fields and the people are as before.  The list is not
    empty afterwards when it held no id twice. *)
Lemma toggleItemAssignment_contract (i : nat) (personId : jsstring)
    (st : State) (item : BillItem) :
  items st !! i = Some item →
  ∃ (st' : State) (item' : BillItem),
    toggleItemAssignment i personId st = Some st' ∧
    items st' !! i = Some item' ∧
    (∀ j, j ≠ i → items st' !! j = items st !! j) ∧
    people st' = people st ∧
    description item' = description item ∧
    amount item' = amount item ∧
    includedInSplit item' = includedInSplit item ∧
    (personId ∈ assignedTo item → 1 < length (assignedTo item) →
       (personId ∉ assignedTo item') ∧
       assignedTo item' = filter (λ id, id ≠ personId) (assignedTo item)) ∧
    (assignedTo item = [personId] → item' = item) ∧
    (personId ∉ assignedTo item →
       assignedTo item' = assignedTo item ++ [personId]) ∧
    (NoDup (assignedTo item) → assignedTo item' ≠ []).
Proof.
  intros Hi. exists (setItems (<[i := toggleAssignment personId item]> (items st)) st),
    (toggleAssignment personId item).
  destruct (toggleAssignment_fields personId item) as (Hd & Ha & Hinc).
  split; [unfold toggleItemAssignment; by rewrite Hi|].
  split; [apply list_lookup_insert_eq; by eapply lookup_lt_Some|].
  split; [intros j Hj; by apply list_lookup_insert_ne|].
  repeat split; try done.
  - rewrite toggleAssignment_remove, list_elem_of_filter by done. by intros [? _].
  - by apply toggleAssignment_remove.
  - apply toggleAssignment_sole.
  - apply toggleAssignment_add.
  - apply toggleAssignment_nonempty.
Qed.

(** C6 fails on the code: the session below is reachable, its only item
    is assigned to nobody but the person of id 3, whose id the list holds
    twice, and toggling 3 passes the guard on the length of the list and
    leaves the item with no assignee. *)
Theorem toggle_empties_assignees :
  let st := run [AddPerson; RemovePerson (lit "1"); AddPerson;
                 HandleFileUpload (Some imageFile) (Recognized (lit "20.00") false);
                 ToggleItemAssignment 0 (lit "2")] in
  reachable st ∧
  assignedTo <$> items st = [[lit "3"; lit "3"]] ∧
  (λ st', assignedTo <$> items st') <$> toggleItemAssignment 0 (lit "3") st
    = Some [[]] ∧
  assignedTo (toggleAssignment (lit "3")
                (mkBillItem (lit "Item 1") (Fin (Q2Qc 20)) true
                   [lit "3"; lit "3"])) = [].
Proof. intros st. split; [subst st; session|]. by vm_compute. Qed.

(** ** Ids of the people *)

Lemma addPerson_frame (st : State) :
  items (addPerson st) = items st ∧
  people (addPerson st) =
    people st ++ [Person.mk (toString (length (people st) + 1))
                    (lit "Person " ++ toString (length (people st) + 1))].
Proof. done. Qed.

Lemma calculatePerPerson_unassigned (items : list BillItem)
    (personId : jsstring) :
  Forall (λ item, personId ∉ assignedTo item) items →
  calculatePerPerson items personId = Number.zero.
Proof.
  induction 1 as [|item items Hnot _ IH]; [done|].
  rewrite calculatePerPerson_cons. unfold includes.
  by rewrite bool_decide_eq_false_2, andb_false_r.
Qed.

(** While the ids are pairwise distinct, the handlers do what the
    session needs: removing takes away one person at most and keeps the
    ids distinct, and two people remain. *)
Lemma filter_id_ne_absent (id : jsstring) (l : list Person) :
  id ∉ Person.id <$> l → filter (λ p, Person.id p ≠ id) l = l.
Proof.
  induction l as [|p l IH]; [done|].
  rewrite fmap_cons. intros [Hp Hl]%not_elem_of_cons.
  rewrite filter_cons, decide_True by done. f_equal. by apply IH.
Qed.

Lemma filter_id_ne_length (id : jsstring) (l : list Person) :
  NoDup (Person.id <$> l) →
  length l ≤ S (length (filter (λ p, Person.id p ≠ id) l)).
Proof.
  induction l as [|p l IH]; [simpl; lia|].
  rewrite fmap_cons. intros [Hp Hl]%NoDup_cons. rewrite filter_cons.
  destruct (decide (Person.id p = id)) as [Heq|Hne].
  - rewrite decide_False by (intros H; by apply H).
    rewrite filter_id_ne_absent by by rewrite <-Heq. simpl. lia.
  - rewrite decide_True by done. specialize (IH Hl). simpl. lia.
Qed.

Lemma fmap_filter_id_ne (id : jsstring) (l : list Person) :
  Person.id <$> filter (λ p, Person.id p ≠ id) l
    = filter (λ i, i ≠ id) (Person.id <$> l).
Proof.
  induction l as [|p l IH]; [done|].
  rewrite fmap_cons, !filter_cons. case_decide; by rewrite ?fmap_cons, IH.
Qed.

Lemma removePerson_distinct_ids (id : jsstring) (st : State) :
  NoDup (Person.id <$> people st) →
  2 ≤ length (people st) →
  NoDup (Person.id <$> people (removePerson id st)) ∧
  2 ≤ length (people (removePerson id st)).
Proof.
  intros Hnodup Hlen. destruct (decide (2 < length (people st))) as [Hgt|Hle].
  - destruct (removePerson_allowed id st Hgt) as [-> _].
    split; [rewrite fmap_filter_id_ne; by apply NoDup_filter|].
    pose proof (filter_id_ne_length id _ Hnodup). lia.
  - by rewrite removePerson_blocked by lia.
Qed.

(** Different numbers are written differently. *)
#[global] Instance toString_inj : Inj (=) (=) toString.
Proof.
  intros n m Heq. unfold toString, lit in Heq.
  apply (inj pretty). rewrite <-(String.string_of_list_ascii_of_string (pretty n)),
    <-(String.string_of_list_ascii_of_string (pretty m)). f_equal.
  revert Heq. generalize (String.list_ascii_of_string (pretty n)) as l.
  generalize (String.list_ascii_of_string (pretty m)) as k.
  intros k l. revert k. induction l as [|a l IH]; intros [|b k]; try done.
  rewrite !fmap_cons. intros [= Hab Hlk]. f_equal; [|by apply IH].
  by rewrite <-(ascii_N_embedding a), <-(ascii_N_embedding b), Hab.
Qed.

(** C2 fails on the code: after a person is added, the person 1 removed
    and a person added again, two people have the id 3. *)
Theorem addPerson_repeats_id :
  let st := run [AddPerson; RemovePerson (lit "1"); AddPerson] in
  reachableByPeopleActions st ∧
  Person.id <$> people st = [lit "2"; lit "3"; lit "3"] ∧
  ¬ NoDup (Person.id <$> people st).
Proof.
  intros st. split; [subst st; session|].
  split; [by vm_compute|].
  apply (bool_decide_eq_false_1 _). by vm_compute.
Qed.

(** C7 fails on the code: removing the id 3 from the three people of ids
    2, 3 and 3 leaves one person. *)
Theorem removePerson_leaves_one_person :
  let before := run [AddPerson; RemovePerson (lit "1"); AddPerson] in
  let st := run [AddPerson; RemovePerson (lit "1"); AddPerson;
                 RemovePerson (lit "3")] in
  reachableByPeopleActions st ∧
  Person.id <$> people before = [lit "2"; lit "3"; lit "3"] ∧
  st = removePerson (lit "3") before ∧
  Person.id <$> people st = [lit "2"] ∧
  length (people st) = 1.
Proof.
  intros before st. split; [subst st; session|]. by vm_compute.
Qed.

(** C10 fails on the code: in the reachable session below the people have
    the ids 2 and 3 and the item is assigned to both; [addPerson] changes
    no item and appends one person, whose id is 3 again and whose share
    of the items is 10, not 0. *)
Theorem addPerson_new_person_has_share :
  let st := run [AddPerson; RemovePerson (lit "1");
                 HandleFileUpload (Some imageFile) (Recognized (lit "20.00") false)] in
  reachable st ∧
  Person.id <$> people st = [lit "2"; lit "3"] ∧
  assignedTo <$> items st = [[lit "2"; lit "3"]] ∧
  items (addPerson st) = items st ∧
  people (addPerson st) = people st ++ [Person.mk (lit "3") (lit "Person 3")] ∧
  calculatePerPerson (items st) (lit "3") = Fin (Q2Qc 10).
Proof.
  intros st. split; [subst st; session|].
  split; [by vm_compute|]. split; [by vm_compute|].
  split; [done|]. split; [by vm_compute|]. number_eq.
Qed.

(** ** An invariant of the sessions *)

Lemma toggleAssignment_subseteq (personId : jsstring) (item : BillItem)
    (ids : list jsstring) :
  personId ∈ ids → assignedTo item ⊆ ids →
  assignedTo (toggleAssignment personId item) ⊆ ids.
Proof.
  intros Hp Hsub. unfold toggleAssignment.
  destruct (includes _ _); [destruct (bool_decide _)|]; cbn [assignedTo];
    [|done|].
  - intros x [_ Hx]%list_elem_of_filter. by apply Hsub.
  - intros x [Hx| ->%list_elem_of_singleton]%elem_of_app; [by apply Hsub | done].
Qed.

Lemma updatePersonName_ids (id newName : jsstring) (st : State) :
  Person.id <$> people (updatePersonName id newName st)
    = Person.id <$> people st.
Proof.
  unfold updatePersonName. cbn [people setPeople].
  rewrite <-list_fmap_compose. apply list_fmap_ext.
  intros _ p _. cbn. by case_bool_decide.
Qed.

Lemma extractItems_assigneesKnown (people0 : list Person) (text : jsstring)
    (st : State) :
  Person.id <$> people0 ⊆ Person.id <$> people st →
  assigneesKnown st → assigneesKnown (extractItems people0 text st).
Proof.
  intros Hsub Hst. unfold extractItems. case_bool_decide; [|done].
  unfold assigneesKnown, newItems. cbn [items people setItems].
  apply Forall_forall. intros item (k & Hk)%list_elem_of_lookup_1.
  rewrite list_lookup_imap in Hk.
  destruct (collectPrices text !! k); [|done]. by injection Hk as <-.
Qed.

Lemma handleFileUpload_assigneesKnown (file : option File) (ocr : OcrOutcome)
    (st : State) :
  assigneesKnown st → assigneesKnown (handleFileUpload file ocr st).
Proof.
  intros Hst. unfold handleFileUpload. destruct file as [f|]; [|done].
  destruct (isImage f); [|done]. unfold processImage, processImageSettled.
  destruct ocr as [|text throws]; [done|].
  pose proof (extractItems_assigneesKnown (people st) text
    (readerOnload (dataUrl f) (processImageStart st))) as Hnew.
  specialize (Hnew ltac:(done) Hst). by destruct throws.
Qed.

Lemma handle_assigneesKnown (st : State) (a : Action) :
  assigneesKnown st → enabled st a → assigneesKnown (handle st a).
Proof.
  intros Hst Hoff.
  destruct a as [|id|id newName|file ocr|i personId|i b|i v| | | | |];
    cbn [handle enabled] in *; try done.
  - unfold assigneesKnown, addPerson. cbn [items people setPeople].
    eapply Forall_impl; [exact Hst|]. intros item Hsub x Hx.
    rewrite fmap_app. apply elem_of_app. left. by apply Hsub.
  - unfold removePerson. case_bool_decide; [|done].
    unfold assigneesKnown. cbn [items people setItems setPeople].
    rewrite Forall_fmap. eapply Forall_impl; [exact Hst|].
    intros item Hsub x [Hne Hx]%list_elem_of_filter. cbn [assignedTo].
    rewrite fmap_filter_id_ne. apply list_elem_of_filter. split; [done|].
    by apply Hsub.
  - unfold assigneesKnown. rewrite updatePersonName_ids. exact Hst.
  - by apply handleFileUpload_assigneesKnown.
  - apply andb_True in Hoff as [Hi%bool_decide_unpack Hp%bool_decide_unpack].
    unfold toggleItemAssignment.
    destruct (lookup_lt_is_Some_2 _ _ Hi) as [item Hitem]. rewrite Hitem.
    cbn [mbind option_bind default]. unfold assigneesKnown.
    cbn [items people setItems]. apply Forall_insert; [exact Hst|].
    apply toggleAssignment_subseteq; [done|].
    by eapply (Forall_lookup_1 _ _ _ _ Hst).
  - apply bool_decide_unpack in Hoff. unfold onIncludeChange.
    destruct (lookup_lt_is_Some_2 _ _ Hoff) as [item Hitem]. rewrite Hitem.
    cbn [mbind option_bind default]. unfold assigneesKnown.
    cbn [items people setItems]. apply Forall_insert; [exact Hst|].
    cbn [assignedTo]. exact (Forall_lookup_1 _ _ _ _ Hst Hitem).
  - apply bool_decide_unpack in Hoff. unfold onDescriptionChange.
    destruct (lookup_lt_is_Some_2 _ _ Hoff) as [item Hitem]. rewrite Hitem.
    cbn [mbind option_bind default]. unfold assigneesKnown.
    cbn [items people setItems]. apply Forall_insert; [exact Hst|].
    cbn [assignedTo]. exact (Forall_lookup_1 _ _ _ _ Hst Hitem).
  - by apply Forall_nil.
Qed.

(** An event of a session without separate reports is the handler on the
    state shown, and it is offered when the page offers it. *)
Lemma step_uninterrupted (s : Session) (a : Action) :
  isUninterrupted a →
  step s a = mkSession (handle (current s) a) (readers s) (uploads s) ∧
  offered s a = enabled (current s) a.
Proof. by destruct a. Qed.

(** Without a removal the people listed keep their ids and places. *)
Lemma handle_people_ids (st : State) (a : Action) :
  isNotRemoval a →
  Person.id <$> people st ⊆ Person.id <$> people (handle st a).
Proof.
  intros Ha.
  destruct a as [|id|id newName|file ocr|i personId|i b|i v| | | | |];
    cbn [handle isNotRemoval] in *; try done.
  - unfold addPerson. cbn [people setPeople]. rewrite fmap_app.
    intros x Hx. apply elem_of_app. by left.
  - by rewrite updatePersonName_ids.
  - by rewrite handleFileUpload_people.
  - unfold toggleItemAssignment. by destruct (items st !! i).
  - unfold onIncludeChange. by destruct (items st !! i).
  - unfold onDescriptionChange. by destruct (items st !! i).
Qed.

(** One event of a session, whenever the reports of the readers and of
    the workers come in, as long as nobody is removed while a worker
    recognises. *)
Lemma step_assigneesKnown (s : Session) (a : Action) :
  assigneesKnown (current s) → uploadsKnown s →
  removalWaits s a → offered s a →
  assigneesKnown (current (step s a)) ∧ uploadsKnown (step s a).
Proof.
  intros Hst Hup Ha Hoff. unfold uploadsKnown in *.
  assert (isUninterrupted a →
    assigneesKnown (current (step s a)) ∧
    Forall (λ u, match u with
                 | Recognizing people0 =>
                     Person.id <$> people0
                       ⊆ Person.id <$> people (current (step s a))
                 | Terminating => True
                 end) (uploads (step s a))) as Huser.
  { intros Hu. destruct (step_uninterrupted s a Hu) as [-> Heq].
    rewrite Heq in Hoff. cbn [current uploads].
    split; [by apply handle_assigneesKnown|].
    assert (isNotRemoval a →
      Forall (λ u, match u with
                   | Recognizing people0 =>
                       Person.id <$> people0
                         ⊆ Person.id <$> people (handle (current s) a)
                   | Terminating => True
                   end) (uploads s)) as Hkeep.
    { intros Hr. eapply Forall_impl; [exact Hup|].
      intros [people0|] Hsub; [|done].
      etrans; [exact Hsub | by apply handle_people_ids]. }
    destruct a; try (by apply Hkeep). cbn [removalWaits] in Ha.
    apply forallb_True in Ha. eapply Forall_impl; [exact Ha|].
    by intros [people0|]. }
  destruct a as [| | | | | | | |file|k|k text|k throws];
    try (by apply Huser); clear Huser; cbn [step].
  - unfold fileChosen. destruct file as [f|]; [|done].
    destruct (isImage f); [|done]. cbn [current uploads]. split; [done|].
    apply Forall_app. split; [exact Hup|]. by apply Forall_singleton.
  - by destruct (readers s !! k).
  - destruct (uploads s !! k) as [[people0|]|] eqn:Hk; [|done..].
    pose proof (Forall_lookup_1 _ _ _ _ Hup Hk) as Hsub. cbn beta iota in Hsub.
    destruct text as [text|]; cbn [current uploads].
    + split; [by apply extractItems_assigneesKnown|].
      destruct (extractItems_frame people0 text (current s)) as [-> _].
      by apply Forall_insert.
    + split; [done|]. by apply Forall_delete.
  - destruct (uploads s !! k) as [[people0|]|] eqn:Hk; [done| |done].
    cbn [current uploads]. split; [by destruct throws|].
    replace (people (processImageEnd throws (current s)))
      with (people (current s)) by by destruct throws.
    by apply Forall_delete.
Qed.

(** As long as nobody is removed while a worker recognises, whoever is
    assigned to an item is one of the people, in every state of the
    session. *)
Lemma reachable_assigneesKnown (st : State) :
  reachableWhen removalWaits st → assigneesKnown st.
Proof.
  intros (s & Hs & <-).
  enough (assigneesKnown (current s) ∧ uploadsKnown s) as [? _] by done.
  induction Hs as [|s a _ [IH1 IH2] Ha Hoff].
  - split; by apply Forall_nil.
  - by apply step_assigneesKnown.
Qed.

(** A session in which every upload settles before the next event is
    such a session: no upload is under way when its events come. *)
Lemma reachable_uninterrupted (st : State) :
  reachableBy isUninterrupted st → reachableWhen removalWaits st.
Proof.
  intros (s & Hs & <-). exists s. split; [|done].
  enough (sessionWhen removalWaits s ∧ uploads s = []) as [? _] by done.
  induction Hs as [|s a _ [IH Hup] Ha Hoff].
  - split; [apply sessionWhen_initial | done].
  - split.
    + apply sessionWhen_step; [done| |done].
      destruct a; try done. cbn [removalWaits]. by rewrite Hup.
    + by destruct (step_uninterrupted s a Ha) as [-> _].
Qed.

(** Then a person added under an id that nobody carries owes nothing. *)
Lemma addPerson_fresh_id_no_share (st : State) :
  reachableWhen removalWaits st →
  toString (length (people st) + 1) ∉ Person.id <$> people st →
  calculatePerPerson (items (addPerson st)) (toString (length (people st) + 1))
    = Number.zero.
Proof.
  intros Hreach Hfresh. apply calculatePerPerson_unassigned.
  eapply Forall_impl; [exact (reachable_assigneesKnown st Hreach)|].
  intros item Hsub Hin. by apply Hfresh, Hsub.
Qed.

(** * Further properties *)

(** ** The price pattern: what it matches *)

Lemma class_splits (f : char → bool) (s m r : jsstring) :
  (m, r) ∈ Regex.class f s → s = m ++ r.
Proof. intros (c & _ & -> & ->)%class_sound. done. Qed.

Lemma star_splits (f : char → bool) (s m r : jsstring) :
  (m, r) ∈ Regex.star f s → s = m ++ r.
Proof. by intros [_ ->]%star_sound. Qed.

Lemma seq_splits (p q : Regex.pattern) :
  (∀ s m r, (m, r) ∈ p s → s = m ++ r) →
  (∀ s m r, (m, r) ∈ q s → s = m ++ r) →
  ∀ s m r, (m, r) ∈ Regex.seq p q s → s = m ++ r.
Proof.
  intros Hp Hq s m r (m1 & r1 & m2 & H1 & H2 & ->)%seq_sound.
  by rewrite (Hp _ _ _ H1), (Hq _ _ _ H2), app_assoc.
Qed.

Lemma opt_splits (p : Regex.pattern) :
  (∀ s m r, (m, r) ∈ p s → s = m ++ r) →
  ∀ s m r, (m, r) ∈ Regex.opt p s → s = m ++ r.
Proof.
  intros Hp s m r [Hin|[= -> ->]%list_elem_of_singleton]%elem_of_app; [|done].
  by apply Hp.
Qed.

Lemma amountGroup_splits (s g r : jsstring) :
  (g, r) ∈ Regex.amountGroup s → s = g ++ r.
Proof.
  apply seq_splits.
  - apply seq_splits; [apply class_splits | apply star_splits].
  - apply opt_splits, seq_splits; [apply class_splits|].
    apply seq_splits; apply class_splits.
Qed.

(** A match attempted at the start of [s] covers [s]: an optional dollar
    sign, white space, and a price token. *)
Lemma priceAt_spec (s whole g : jsstring) :
  (whole, g) ∈ Regex.priceAt s →
  whole = s ∧
  ∃ m0 m1, s = m0 ++ m1 ++ g ∧ (m0 = [] ∨ m0 = [36%N]) ∧
    Forall isWhiteSpace m1 ∧ tokenShape g.
Proof.
  unfold Regex.priceAt. intros Hin.
  apply list_elem_of_bind in Hin as ([m0 r0] & Hin & H0).
  apply list_elem_of_bind in Hin as ([m1 r1] & Hin & H1).
  apply list_elem_of_bind in Hin as ([g' r2] & Hin & Hg).
  apply list_elem_of_bind in Hin as ([e1 e2] & Hin & He).
  apply list_elem_of_singleton in Hin as [= -> ->].
  assert (r2 = []) as ->.
  { unfold Regex.eos in He. destruct r2; [done | by apply elem_of_nil in He]. }
  pose proof (amountGroup_splits _ _ _ Hg) as Hr1. rewrite app_nil_r in Hr1.
  pose proof (star_sound _ _ _ _ H1) as [Hws Hr0].
  assert (s = m0 ++ r0 ∧ (m0 = [] ∨ m0 = [36%N])) as [Hs Hm0].
  { unfold Regex.opt in H0. apply elem_of_app in H0 as [H0|H0].
    - apply class_sound in H0 as (c & Hc & -> & ->). split; [done|]. right.
      unfold Regex.isDollar in Hc. apply Is_true_true, N.eqb_eq in Hc. by subst.
    - apply list_elem_of_singleton in H0 as [= -> ->]. by split; [|left]. }
  subst r1 r0. split; [done|]. exists m0, m1. split; [done|]. split; [done|].
  split; [done|]. by eapply amountGroup_sound.
Qed.

Lemma head_bind {A B : Type} (l : list A) (k : A → list B) (x : A) (y : B) :
  head l = Some x → head (k x) = Some y → head (l ≫= k) = Some y.
Proof.
  destruct l as [|x' l]; [done|]. intros [= ->] Hy. cbn.
  destruct (k x); [done|]. by injection Hy as ->.
Qed.

Lemma star_head (f : char → bool) (m rest : jsstring) :
  Forall f m →
  match rest with c :: _ => f c = false | [] => True end →
  head (Regex.star f (m ++ rest)) = Some (m, rest).
Proof.
  intros Hm Hrest. induction Hm as [|c m Hc _ IH]; cbn [app Regex.star].
  - destruct rest as [|c rest]; [done|]. cbn [Regex.star]. by rewrite Hrest.
  - apply Is_true_true in Hc. rewrite Hc.
    destruct (Regex.star f (m ++ rest)) as [|[m' r'] l]; [done|].
    by injection IH as -> ->.
Qed.

Lemma isDigit_not_dollar (c : char) : isDigit c → Regex.isDollar c = false.
Proof.
  intros Hc. unfold Regex.isDollar.
  destruct (isDigit_cases c Hc) as [->|[->|[->|[->|[->|[->|[->|[->|[->| ->]]]]]]]]];
    done.
Qed.

Lemma isDigit_not_space (c : char) : isDigit c → isWhiteSpace c = false.
Proof.
  intros Hc.
  destruct (isDigit_cases c Hc) as [->|[->|[->|[->|[->|[->|[->|[->|[->| ->]]]]]]]]];
    by vm_compute.
Qed.

Lemma isDigit_not_dot (c : char) : isDigit c → Regex.isDot c = false.
Proof.
  intros Hc. unfold Regex.isDot.
  destruct (isDigit_cases c Hc) as [->|[->|[->|[->|[->|[->|[->|[->|[->| ->]]]]]]]]];
    done.
Qed.

(** On a price token, the first match of group 1 is the whole token. *)
Lemma amountGroup_head (g : jsstring) :
  tokenShape g → head (Regex.amountGroup g) = Some (g, []).
Proof.
  intros (ip & Hne & Hip & Hg). destruct ip as [|c ip]; [done|].
  apply Forall_cons in Hip as [Hc Hip]. pose proof Hc as Hc'.
  apply Is_true_true in Hc'. unfold Regex.amountGroup.
  destruct Hg as [->|(d1 & d2 & Hd1 & Hd2 & ->)].
  - eapply (head_bind _ _ (c :: ip, [])).
    + unfold Regex.plus. eapply (head_bind _ _ ([c], ip)).
      { unfold Regex.class. by rewrite Hc'. }
      eapply (head_bind _ _ (ip, [])); [|done].
      rewrite <-(app_nil_r ip) at 1. by apply star_head.
    + cbn. by rewrite app_nil_r.
  - eapply (head_bind _ _ (c :: ip, [46%N; d1; d2])).
    + unfold Regex.plus. rewrite <-app_comm_cons.
      eapply (head_bind _ _ ([c], ip ++ [46%N; d1; d2])).
      { unfold Regex.class. by rewrite Hc'. }
      eapply (head_bind _ _ (ip, [46%N; d1; d2])); [|done].
      by apply star_head.
    + apply Is_true_true in Hd1, Hd2. unfold Regex.opt, Regex.seq, Regex.class.
      cbn -[isDigit]. rewrite Hd1. cbn -[isDigit]. rewrite Hd2. done.
Qed.

Lemma priceAt_head (g : jsstring) :
  tokenShape g → head (Regex.priceAt g) = Some (g, g).
Proof.
  intros Hg. pose proof (amountGroup_head g Hg) as Hhead.
  destruct Hg as (ip & Hne & Hip & Hg). destruct ip as [|c ip]; [done|].
  apply Forall_cons in Hip as [Hc Hip].
  assert (∃ r, g = c :: r) as [r ->].
  { destruct Hg as [->|(d1 & d2 & _ & _ & ->)]; by eexists. }
  unfold Regex.priceAt.
  eapply (head_bind _ _ ([], c :: r)).
  { unfold Regex.opt, Regex.class. by rewrite isDigit_not_dollar. }
  eapply (head_bind _ _ ([], c :: r)).
  { cbn [Regex.star]. by rewrite isDigit_not_space. }
  eapply (head_bind _ _ (c :: r, [])); [exact Hhead|]. done.
Qed.

Lemma tokenShape_first (g : jsstring) :
  tokenShape g → ∃ c r, g = c :: r ∧ isDigit c.
Proof.
  intros (ip & Hne & Hip & Hg). destruct ip as [|c ip]; [done|].
  apply Forall_cons in Hip as [Hc _].
  destruct Hg as [->|(d1 & d2 & _ & _ & ->)]; by eexists _, _.
Qed.

Lemma tokenShape_last (g : jsstring) :
  tokenShape g → ∃ r d, g = r ++ [d] ∧ isDigit d.
Proof.
  intros (ip & Hne & Hip & [->|(d1 & d2 & _ & Hd2 & ->)]).
  - destruct (last ip) as [d|] eqn:Hlast.
    + apply last_Some in Hlast as [r ->]. exists r, d. split; [done|].
      by apply Forall_app in Hip as [_ [Hd _]%Forall_cons].
    + apply last_None in Hlast. done.
  - exists (ip ++ [46%N; d1]), d2. by rewrite <-app_assoc.
Qed.

Lemma tokenShape_chars (g : jsstring) :
  tokenShape g → Forall (λ c, isDigit c ∨ c = 46%N) g.
Proof.
  intros (ip & Hne & Hip & Hg).
  assert (Forall (λ c, isDigit c ∨ c = 46%N) ip) as Hip'.
  { eapply Forall_impl; [exact Hip|]. by left. }
  destruct Hg as [->|(d1 & d2 & Hd1 & Hd2 & ->)]; [done|].
  apply Forall_app. split; [done|].
  apply Forall_cons; split; [by right|].
  apply Forall_cons; split; [by left|].
  apply Forall_cons; split; [by left|]. constructor.
Qed.

Lemma suffix_app_longer {A : Type} (t a g : list A) :
  t `suffix_of` a ++ g → length g < length t →
  ∃ x, x ≠ [] ∧ t = x ++ g ∧ x `suffix_of` a.
Proof.
  intros [k Hk] Hlen. apply app_eq_app in Hk as [l [[-> ->]|[-> ->]]].
  - exists l. split; [|split; [done | by exists k]].
    intros ->. simpl in Hlen. lia.
  - rewrite length_app in Hlen. lia.
Qed.

(** The match of the price pattern in a line: its group is the longest
    price token that ends the line, and there is no match when no price
    token ends the line. *)
Lemma priceMatch_longest (s : jsstring) :
  match Regex.priceMatch s with
  | Some (whole, g) =>
      whole `suffix_of` s ∧
      (∃ m0 m1, whole = m0 ++ m1 ++ g ∧ (m0 = [] ∨ m0 = [36%N]) ∧
         Forall isWhiteSpace m1) ∧
      tokenShape g ∧
      ∀ t, t `suffix_of` s → tokenShape t → length t ≤ length g
  | None => ∀ t, t `suffix_of` s → ¬ tokenShape t
  end.
Proof.
  induction s as [|c s IH].
  { change (Regex.priceMatch []) with (@None (jsstring * jsstring)).
    intros t Ht%suffix_nil_inv Htok. subst t.
    by destruct (tokenShape_first [] Htok) as (? & ? & ? & _). }
  change (Regex.priceMatch (c :: s))
    with (match head (Regex.priceAt (c :: s)) with
          | Some r => Some r
          | None => Regex.priceMatch s
          end).
  destruct (head (Regex.priceAt (c :: s))) as [[whole g]|] eqn:Hhead.
  - apply head_Some_elem_of, priceAt_spec in Hhead
      as (-> & m0 & m1 & Hs & Hm0 & Hm1 & Hg).
    split; [done|]. split; [by exists m0, m1|]. split; [done|].
    intros t Ht Htok. destruct (decide (length t ≤ length g)) as [|Hlong]; [done|].
    exfalso. rewrite Hs, app_assoc in Ht.
    apply suffix_app_longer in Ht as (x & Hx & -> & Hsuf); [|lia].
    destruct x as [|y x]; [done|].
    destruct (tokenShape_first _ Htok) as (y' & r & [= <- _] & Hy).
    assert (y ∈ m0 ++ m1) as Hin.
    { destruct Hsuf as [k ->]. apply elem_of_app. right. by left. }
    apply elem_of_app in Hin as [Hin|Hin].
    + destruct Hm0 as [->| ->]; [by apply elem_of_nil in Hin|].
      apply list_elem_of_singleton in Hin as ->. done.
    + rewrite Forall_forall in Hm1. specialize (Hm1 _ Hin).
      by rewrite isDigit_not_space in Hm1.
  - assert (¬ tokenShape (c :: s)) as Hnot.
    { intros Htok%priceAt_head. by rewrite Hhead in Htok. }
    destruct (Regex.priceMatch s) as [[whole g]|].
    + destruct IH as (Hsuf & Hshape & Hg & Hlongest).
      split; [by apply suffix_cons_r|]. split; [done|]. split; [done|].
      intros t Ht Htok. destruct (tokenShape_first _ Htok) as (y & r & -> & _).
      apply suffix_cons_inv in Ht as [Heq|Ht]; [by rewrite Heq in Htok|].
      by apply Hlongest.
    + intros t Ht Htok. destruct (tokenShape_first _ Htok) as (y & r & -> & _).
      apply suffix_cons_inv in Ht as [Heq|Ht]; [by rewrite Heq in Htok|].
      by apply (IH _ Ht).
Qed.

Lemma trimStart_keeps (c : char) (s : jsstring) :
  isWhiteSpace c = false → trimStart (c :: s) = c :: s.
Proof. intros Hc. cbn [trimStart]. by rewrite Hc. Qed.

Lemma trimStart_spaces (ws s : jsstring) :
  Forall isWhiteSpace ws → trimStart (ws ++ s) = trimStart s.
Proof.
  induction 1 as [|c ws Hc _ IH]; [done|].
  cbn [app trimStart]. apply Is_true_true in Hc. by rewrite Hc.
Qed.

Lemma trimStart_app (pre g : jsstring) :
  match g with c :: _ => isWhiteSpace c = false | [] => False end →
  ∃ pre', trimStart (pre ++ g) = pre' ++ g ∧ pre' `suffix_of` pre.
Proof.
  intros Hg. induction pre as [|c pre (pre' & IH & Hsuf)].
  - exists []. split; [|done]. destruct g as [|c g]; [done|].
    by apply trimStart_keeps.
  - cbn [app trimStart]. destruct (isWhiteSpace c).
    + exists pre'. split; [done|]. by apply suffix_cons_r.
    + by exists (c :: pre).
Qed.

Lemma trimEnd_app (x trail : jsstring) (d : char) :
  Forall isWhiteSpace trail → isWhiteSpace d = false →
  trimEnd (x ++ [d] ++ trail) = x ++ [d].
Proof.
  intros Htrail Hd. unfold trimEnd.
  rewrite !reverse_app, <-app_assoc, trimStart_spaces by by apply Forall_reverse.
  rewrite reverse_singleton. cbn [app]. rewrite trimStart_keeps by done.
  by rewrite reverse_cons, reverse_involutive.
Qed.

(** Trimming a line that ends with a price token and white space leaves
    the token at the end, after what is left of the text before it. *)
Lemma trim_before_token (pre g trail : jsstring) :
  tokenShape g → Forall isWhiteSpace trail →
  ∃ pre', trim (pre ++ g ++ trail) = pre' ++ g ∧ pre' `suffix_of` pre.
Proof.
  intros Hg Htrail. destruct (tokenShape_first g Hg) as (c & r & Hgc & Hc).
  destruct (tokenShape_last g Hg) as (r' & d & Hgd & Hd).
  destruct (trimStart_app pre (g ++ trail)) as (pre' & Htrim & Hsuf).
  { rewrite Hgc. cbn [app]. by apply isDigit_not_space. }
  exists pre'. split; [|done]. unfold trim. rewrite Htrim, Hgd.
  rewrite <-(app_assoc r'), (app_assoc pre' r').
  rewrite trimEnd_app by (by try apply isDigit_not_space).
  by rewrite app_assoc.
Qed.

Lemma priceMatch_after_separator (pre g : jsstring) :
  tokenShape g → separated pre →
  ∃ whole, Regex.priceMatch (pre ++ g) = Some (whole, g).
Proof.
  intros Hg Hsep. pose proof (priceMatch_longest (pre ++ g)) as Hspec.
  destruct (Regex.priceMatch (pre ++ g)) as [[whole g']|].
  2: { destruct (Hspec g); [by apply suffix_app_r | done]. }
  exists whole. do 2 f_equal.
  destruct Hspec as (Hsuf & (m0 & m1 & -> & _) & Hg' & Hlongest).
  assert (g' `suffix_of` pre ++ g) as Hsuf'.
  { rewrite app_assoc in Hsuf. by eapply suffix_app_l. }
  assert (length g ≤ length g') as Hle.
  { apply Hlongest; [by apply suffix_app_r | done]. }
  destruct (decide (length g < length g')) as [Hlt|Hge].
  - exfalso. apply suffix_app_longer in Hsuf' as (x & Hx & -> & Hxpre); [|done].
    destruct (last x) as [c|] eqn:Hlast; [|by apply last_None in Hlast].
    assert (last pre = Some c) as Hpre.
    { destruct Hxpre as [k ->]. rewrite last_app. by rewrite Hlast. }
    unfold separated in Hsep. rewrite Hpre in Hsep. destruct Hsep as [Hnd Hndot].
    apply last_Some in Hlast as [x' ->].
    pose proof (tokenShape_chars _ Hg') as Hchars.
    rewrite Forall_forall in Hchars. destruct (Hchars c) as [Hc|Hc].
    + rewrite !elem_of_app. left. right. by left.
    + by rewrite Hnd in Hc.
    + done.
  - destruct Hsuf' as [k Hk]. apply app_eq_app in Hk as [l [[-> ->]|[-> ->]]].
    + rewrite length_app in Hge. destruct l; [done | simpl in Hge; lia].
    + rewrite length_app in Hle. destruct l; [done | simpl in Hle; lia].
Qed.

Lemma separated_suffix (pre pre' : jsstring) :
  pre' `suffix_of` pre → separated pre → separated pre'.
Proof.
  intros [k ->] Hsep. unfold separated in *. rewrite last_app in Hsep.
  by destruct (last pre').
Qed.

(** X1: a line matches the price pattern exactly when it ends with a
    digit. *)
Theorem priceMatch_iff_ends_with_digit (s : jsstring) :
  is_Some (Regex.priceMatch s) ↔ ∃ pre d, s = pre ++ [d] ∧ isDigit d.
Proof.
  pose proof (priceMatch_longest s) as Hspec. split.
  - intros [[whole g] Hm]. rewrite Hm in Hspec.
    destruct Hspec as ([k ->] & (m0 & m1 & -> & _) & Hg & _).
    destruct (tokenShape_last g Hg) as (r & d & -> & Hd).
    exists (k ++ m0 ++ m1 ++ r), d. by rewrite <-!app_assoc.
  - intros (pre & d & -> & Hd).
    destruct (Regex.priceMatch (pre ++ [d])) as [m|]; [by eexists|].
    destruct (Hspec [d]); [by apply suffix_app_r|].
    exists [d]. split; [done|]. split; [by repeat constructor | by left].
Qed.

(** X2: when a line matches, the whole match ends the line and is an
    optional dollar sign, white space and group 1; group 1 is a price
    token, and no longer price token ends the line. *)
Theorem priceMatch_group_is_longest_token (s whole g : jsstring) :
  Regex.priceMatch s = Some (whole, g) →
  (whole `suffix_of` s) ∧
  (∃ m0 m1, whole = m0 ++ m1 ++ g ∧ (m0 = [] ∨ m0 = [36%N]) ∧
     Forall isWhiteSpace m1) ∧
  tokenShape g ∧
  ∀ t, t `suffix_of` s → tokenShape t → length t ≤ length g.
Proof.
  intros Hm. pose proof (priceMatch_longest s) as Hspec. by rewrite Hm in Hspec.
Qed.

Lemma priceMatch_group_is_longest_token_witness :
  let s := lit "Tea  $ 12.505" in
  let whole := lit "505" in
  let g := lit "505" in
  Regex.priceMatch s = Some (whole, g) ∧
  (whole `suffix_of` s) ∧
  (∃ m0 m1, whole = m0 ++ m1 ++ g ∧ (m0 = [] ∨ m0 = [36%N]) ∧
     Forall isWhiteSpace m1) ∧
  tokenShape g ∧
  ∀ t, t `suffix_of` s → tokenShape t → length t ≤ length g.
Proof.
  intros s whole g.
  assert (Hm : Regex.priceMatch s = Some (whole, g)) by (vm_compute; reflexivity).
  split; [exact Hm|].
  exact (priceMatch_group_is_longest_token s whole g Hm).
Defined.

Lemma priceAccepted_Fin (q : Qc) :
  priceAccepted (Fin q) = bool_decide (Q2Qc (1 # 2) ≤ q ∧ q ≤ Q2Qc 1000)%Qc.
Proof.
  unfold priceAccepted, Number.gt, Number.ge, Number.lt, Number.le, Number.zero.
  cbn [Number.isNaN negb andb].
  destruct (decide (Q2Qc (1 # 2) ≤ q)%Qc) as [Hlo|Hlo].
  - rewrite (bool_decide_eq_true_2 (0 < q)%Qc).
    2: { eapply Qclt_le_trans; [|exact Hlo]. done. }
    rewrite (bool_decide_eq_true_2 _ Hlo). cbn [andb].
    apply bool_decide_ext. split; [by intros ? | by intros [_ ?]].
  - rewrite (bool_decide_eq_false_2 _ Hlo), andb_false_r.
    symmetry. apply bool_decide_eq_false_2. by intros [? _].
Qed.

(** X3: a line made of a text that is empty or ends with neither a digit
    nor a point, then an amount written as digits or as digits, a point
    and two digits, then white space, pushes that amount when it lies
    between 0.50 and 1000, and pushes nothing otherwise. *)
Theorem scanLine_labelled_amount (prices : list jsstring)
    (pre g trail : jsstring) :
  tokenShape g → separated pre → Forall isWhiteSpace trail →
  ∃ q : Qc, priceToken g q ∧
    scanLine prices (pre ++ g ++ trail) =
      if bool_decide (Q2Qc (1 # 2) ≤ q ∧ q ≤ Q2Qc 1000)%Qc
      then prices ++ [g] else prices.
Proof.
  intros Hg Hsep Htrail.
  destruct (parseFloat_token g Hg) as (q & Htoken & Hq).
  exists q. split; [done|].
  destruct (trim_before_token pre g trail Hg Htrail) as (pre' & Htrim & Hsuf).
  destruct (priceMatch_after_separator pre' g Hg) as [whole Hm].
  { by eapply separated_suffix. }
  rewrite scanLine_spec. unfold candidate. rewrite Htrim, Hm.
  change (option_list (snd <$> Some (whole, g))) with [g].
  rewrite filter_cons, filter_nil, Hq, priceAccepted_Fin.
  destruct (bool_decide _) eqn:Hb.
  - destruct (decide true) as [_|[]]; done.
  - destruct (decide false) as [[]|_]. by rewrite app_nil_r.
Qed.

Lemma scanLine_labelled_amount_witness :
  let prices := [lit "3.50"] in
  let pre := lit "  Green tea x2 $ " in
  let g := lit "12.00" in
  let trail := [32%N; 13%N] in
  tokenShape g ∧ separated pre ∧ Forall isWhiteSpace trail ∧
  ∃ q : Qc, priceToken g q ∧
    scanLine prices (pre ++ g ++ trail) =
      if bool_decide (Q2Qc (1 # 2) ≤ q ∧ q ≤ Q2Qc 1000)%Qc
      then prices ++ [g] else prices.
Proof.
  intros prices pre g trail.
  assert (Hg : tokenShape g).
  { exists (lit "12"). split; [done|]. split; [by_evaluation|]. right.
    exists 48%N, 48%N. by vm_compute. }
  assert (Hsep : separated pre) by (by vm_compute).
  assert (Htrail : Forall isWhiteSpace trail) by by_evaluation.
  split; [exact Hg|]. split; [exact Hsep|]. split; [exact Htrail|].
  exact (scanLine_labelled_amount prices pre g trail Hg Hsep Htrail).
Defined.

(** ** The loop over the lines *)

Lemma split_lf_nonempty (s : jsstring) : split_lf s ≠ [].
Proof.
  destruct s as [|c s]; [done|]. cbn [split_lf].
  destruct (c =? 10)%N; [done|]. by destruct (split_lf s).
Qed.

Lemma split_lf_app (t1 t2 : jsstring) :
  split_lf (t1 ++ 10%N :: t2) = split_lf t1 ++ split_lf t2.
Proof.
  induction t1 as [|c t1 IH]; [done|]. cbn [app split_lf]. rewrite IH.
  destruct (c =? 10)%N; [done|].
  pose proof (split_lf_nonempty t1). by destruct (split_lf t1).
Qed.

Lemma split_lf_length (s : jsstring) :
  length (split_lf s) = S (length (filter (λ c, c = 10%N) (s : list N))).
Proof.
  induction s as [|c s IH]; [done|]. cbn [split_lf]. rewrite filter_cons.
  destruct (N.eqb_spec c 10) as [->|Hne].
  - rewrite decide_True by done. simpl. by rewrite IH.
  - rewrite decide_False by done. rewrite <-IH.
    pose proof (split_lf_nonempty s). by destruct (split_lf s).
Qed.

Lemma omap_length_le {A B : Type} (f : A → option B) (l : list A) :
  length (omap f l) ≤ length l.
Proof.
  induction l as [|x l IH]; [done|]. cbn. destruct (f x); simpl; lia.
Qed.

(** X4: the prices collected from two texts joined by a line feed are
    those of the first text followed by those of the second. *)
Theorem collectPrices_joined (t1 t2 : jsstring) :
  collectPrices (t1 ++ 10%N :: t2) = collectPrices t1 ++ collectPrices t2.
Proof.
  unfold collectPrices.
  by rewrite split_lf_app, foldl_app, !foldl_scanLine, !app_nil_l.
Qed.

(** X5: the loop collects at most one price per line, a text having one
    more line than it has line feeds. *)
Theorem collectPrices_at_most_one_per_line (text : jsstring) :
  length (collectPrices text)
    ≤ S (length (filter (λ c, c = 10%N) (text : list N))).
Proof.
  rewrite collectPrices_spec, <-split_lf_length. unfold survivingCandidates.
  etrans; [apply length_filter | apply omap_length_le].
Qed.

(** ** Uploading a file *)


(** ** People *)

(** X7: renaming keeps the people in place with their ids, sets the name
    of whoever carries the id and of nobody else, changes no item, and
    does nothing at all when nobody carries the id. *)
Theorem updatePersonName_effect (id newName : jsstring) (st : State) :
  Person.id <$> people (updatePersonName id newName st)
    = Person.id <$> people st ∧
  items (updatePersonName id newName st) = items st ∧
  (∀ (i : nat) (p : Person), people st !! i = Some p →
     ∃ p', people (updatePersonName id newName st) !! i = Some p' ∧
       Person.id p' = Person.id p ∧
       Person.name p' = if decide (Person.id p = id) then newName
                        else Person.name p) ∧
  (id ∉ Person.id <$> people st → updatePersonName id newName st = st).
Proof.
  split; [apply updatePersonName_ids|]. split; [done|]. split.
  - intros i p Hi. unfold updatePersonName. cbn [people setPeople].
    rewrite list_lookup_fmap, Hi. eexists. split; [done|].
    case_bool_decide; by case_decide.
  - intros Hid. unfold updatePersonName, setPeople. destruct st as [pr its ppl err img].
    cbn [people items isProcessing error imagePreview] in *. f_equal.
    induction ppl as [|p ppl IH]; [done|].
    rewrite fmap_cons in Hid. apply not_elem_of_cons in Hid as [Hp Hid].
    rewrite fmap_cons, IH by done. by rewrite bool_decide_eq_false_2.
Qed.

(** X8: when the ids are pairwise distinct, more than two people are
    listed and one of them carries the id, [removePerson] takes exactly
    that person away: one person fewer, nobody with the id any more,
    everybody else still there, the ids still distinct and at least two
    people left. *)
Theorem removePerson_removes_one (id : jsstring) (st : State) :
  NoDup (Person.id <$> people st) →
  2 < length (people st) →
  id ∈ Person.id <$> people st →
  S (length (people (removePerson id st))) = length (people st) ∧
  (id ∉ Person.id <$> people (removePerson id st)) ∧
  (∀ p, p ∈ people st → Person.id p ≠ id → p ∈ people (removePerson id st)) ∧
  NoDup (Person.id <$> people (removePerson id st)) ∧
  2 ≤ length (people (removePerson id st)).
Proof.
  intros Hnodup Hlen Hin.
  destruct (removePerson_allowed id st Hlen) as [-> _].
  assert (S (length (filter (λ p, Person.id p ≠ id) (people st)))
          = length (people st)) as Hcount.
  { rewrite <-(length_fmap Person.id), fmap_filter_id_ne.
    rewrite filter_ne_length by done. by rewrite length_fmap. }
  split; [done|]. split.
  { rewrite fmap_filter_id_ne, list_elem_of_filter. by intros [? _]. }
  split; [intros p Hp Hne; by apply list_elem_of_filter|].
  split; [rewrite fmap_filter_id_ne; by apply NoDup_filter | lia].
Qed.

Lemma removePerson_removes_one_witness :
  let st := run [AddPerson; AddPerson] in
  let id := lit "2" in
  NoDup (Person.id <$> people st) ∧
  2 < length (people st) ∧
  id ∈ Person.id <$> people st ∧
  S (length (people (removePerson id st))) = length (people st) ∧
  (id ∉ Person.id <$> people (removePerson id st)) ∧
  (∀ p, p ∈ people st → Person.id p ≠ id → p ∈ people (removePerson id st)) ∧
  NoDup (Person.id <$> people (removePerson id st)) ∧
  2 ≤ length (people (removePerson id st)).
Proof.
  intros st id.
  assert (H1 : NoDup (Person.id <$> people st)) by by_evaluation.
  assert (H2 : 2 < length (people st)) by (vm_compute; lia).
  assert (H3 : id ∈ Person.id <$> people st) by by_evaluation.
  split; [exact H1|]. split; [exact H2|]. split; [exact H3|].
  exact (removePerson_removes_one id st H1 H2 H3).
Defined.

(** X9: removing a person leaves an item that was assigned to that person
    alone in the list, with its amount and its inclusion flag but with no
    assignee: it counts in the total and in nobody's share. *)
Theorem removePerson_orphans_item (id : jsstring) (st : State) (i : nat)
    (item : BillItem) :
  2 < length (people st) →
  items st !! i = Some item →
  Forall (λ q, q = id) (assignedTo item) →
  ∃ item', items (removePerson id st) !! i = Some item' ∧
    assignedTo item' = [] ∧
    amount item' = amount item ∧
    includedInSplit item' = includedInSplit item ∧
    (includedInSplit item → calculateTotal [item'] = amount item) ∧
    ∀ personId, calculatePerPerson [item'] personId = Number.zero.
Proof.
  intros Hlen Hi Hsole. destruct (removePerson_allowed id st Hlen) as [_ ->].
  eexists. split; [by rewrite list_lookup_fmap, Hi|].
  cbn [assignedTo amount includedInSplit].
  assert (filter (λ q, q ≠ id) (assignedTo item) = []) as ->.
  { induction Hsole as [|q l -> _ IH]; [done|].
    by rewrite filter_cons, decide_False by (intros H; by apply H). }
  split; [done|]. split; [done|]. split; [done|]. split.
  - intros Hinc. rewrite calculateTotal_cons. cbn [includedInSplit amount].
    apply Is_true_true in Hinc. rewrite Hinc. apply add_zero_r.
  - intros personId. rewrite calculatePerPerson_cons. cbn [assignedTo].
    by rewrite andb_false_r.
Qed.

Lemma removePerson_orphans_item_witness :
  let st :=
    setItems [mkBillItem (lit "Item 1") (Fin (Q2Qc 20)) true [lit "3"]]
      (addPerson initialState) in
  let item := mkBillItem (lit "Item 1") (Fin (Q2Qc 20)) true [lit "3"] in
  2 < length (people st) ∧
  items st !! 0 = Some item ∧
  Forall (λ q, q = lit "3") (assignedTo item) ∧
  ∃ item', items (removePerson (lit "3") st) !! 0 = Some item' ∧
    assignedTo item' = [] ∧
    amount item' = amount item ∧
    includedInSplit item' = includedInSplit item ∧
    (includedInSplit item → calculateTotal [item'] = amount item) ∧
    ∀ personId, calculatePerPerson [item'] personId = Number.zero.
Proof.
  intros st item.
  assert (H1 : 2 < length (people st)) by (vm_compute; lia).
  assert (H2 : items st !! 0 = Some item) by reflexivity.
  assert (H3 : Forall (λ q, q = lit "3") (assignedTo item)) by by_evaluation.
  split; [exact H1|]. split; [exact H2|]. split; [exact H3|].
  exact (removePerson_orphans_item (lit "3") st 0 item H1 H2 H3).
Defined.

(** ** Rows of the item table *)

Lemma toggleAssignment_NoDup (personId : jsstring) (item : BillItem) :
  NoDup (assignedTo item) → NoDup (assignedTo (toggleAssignment personId item)).
Proof.
  intros Hnodup. unfold toggleAssignment, includes.
  case_bool_decide; [case_bool_decide|]; cbn [assignedTo]; [|done|].
  - by apply NoDup_filter.
  - apply NoDup_app. split; [done|]. split; [|apply NoDup_singleton].
    by intros x Hx ->%list_elem_of_singleton.
Qed.

Lemma toggleAssignment_twice (personId : jsstring) (item : BillItem) :
  NoDup (assignedTo item) → assignedTo item ≠ [] →
  assignedTo (toggleAssignment personId (toggleAssignment personId item))
    ≡ₚ assignedTo item.
Proof.
  intros Hnodup Hne.
  destruct (decide (personId ∈ assignedTo item)) as [Hin|Hnot].
  - destruct (decide (1 < length (assignedTo item))) as [Hlen|Hlen].
    + assert (personId ∉ assignedTo (toggleAssignment personId item)) as Hgone.
      { rewrite toggleAssignment_remove, list_elem_of_filter by done.
        by intros [? _]. }
      rewrite toggleAssignment_add, toggleAssignment_remove by done.
      apply NoDup_Permutation; [|done|].
      * apply NoDup_app. split; [by apply NoDup_filter|].
        split; [|apply NoDup_singleton].
        intros x [Hx _]%list_elem_of_filter ->%list_elem_of_singleton. done.
      * intros x. rewrite elem_of_app, list_elem_of_filter, list_elem_of_singleton.
        destruct (decide (x = personId)) as [->|]; [|tauto].
        split; [by intros _ | by right].
    + assert (toggleAssignment personId item = item) as Heq.
      { unfold toggleAssignment, includes.
        by rewrite bool_decide_eq_true_2, bool_decide_eq_false_2. }
      by rewrite !Heq.
  - assert (assignedTo (toggleAssignment personId item)
            = assignedTo item ++ [personId]) as Hadd
      by by apply toggleAssignment_add.
    rewrite toggleAssignment_remove, Hadd.
    + rewrite filter_app, filter_ne_absent by done.
      rewrite filter_cons, filter_nil, decide_False by (intros H; by apply H).
      by rewrite app_nil_r.
    + rewrite Hadd, elem_of_app, list_elem_of_singleton. by right.
    + rewrite Hadd, length_app. destruct (assignedTo item); [done | simpl; lia].
Qed.

(** X10: the handlers of a row throw exactly when there is no such row;
    otherwise they keep the number of items and the people. *)
Theorem row_handlers_bounds (i : nat) (personId value : jsstring)
    (checked : bool) (st : State) :
  (toggleItemAssignment i personId st = None ↔ length (items st) ≤ i) ∧
  (onIncludeChange i checked st = None ↔ length (items st) ≤ i) ∧
  (onDescriptionChange i value st = None ↔ length (items st) ≤ i) ∧
  ∀ st', (toggleItemAssignment i personId st = Some st' ∨
          onIncludeChange i checked st = Some st' ∨
          onDescriptionChange i value st = Some st') →
    length (items st') = length (items st) ∧ people st' = people st.
Proof.
  unfold toggleItemAssignment, onIncludeChange, onDescriptionChange.
  rewrite <-(lookup_ge_None (items st) i).
  destruct (items st !! i) as [item|]; cbn [mbind option_bind].
  - split; [done|]. split; [done|]. split; [done|].
    intros st' [[= <-]|[[= <-]|[= <-]]]; cbn [items people setItems];
      by rewrite length_insert.
  - split; [done|]. split; [done|]. split; [done|].
    by intros st' [|[|]].
Qed.

(** X11: a toggle changes nobody else's assignment to the item; it
    leaves [personId] assigned exactly when [personId] was not assigned
    or the list had at most one entry; and it keeps a list without
    repetition without repetition. *)
Theorem toggleItemAssignment_membership (i : nat) (personId : jsstring)
    (st st' : State) (item item' : BillItem) :
  toggleItemAssignment i personId st = Some st' →
  items st !! i = Some item →
  items st' !! i = Some item' →
  (∀ q, q ≠ personId → (q ∈ assignedTo item' ↔ q ∈ assignedTo item)) ∧
  (personId ∈ assignedTo item' ↔
     personId ∉ assignedTo item ∨ length (assignedTo item) ≤ 1) ∧
  (NoDup (assignedTo item) → NoDup (assignedTo item')).
Proof.
  intros Htoggle Hi Hi'. unfold toggleItemAssignment in Htoggle.
  rewrite Hi in Htoggle. injection Htoggle as <-. cbn [items setItems] in Hi'.
  rewrite list_lookup_insert_eq in Hi' by by eapply lookup_lt_Some.
  injection Hi' as <-. split; [|split; [|apply toggleAssignment_NoDup]].
  - intros q Hq. destruct (decide (personId ∈ assignedTo item)) as [Hin|Hnot].
    + destruct (decide (1 < length (assignedTo item))) as [Hlen|Hlen].
      * rewrite toggleAssignment_remove, list_elem_of_filter by done. tauto.
      * unfold toggleAssignment, includes.
        by rewrite bool_decide_eq_true_2, bool_decide_eq_false_2.
    + rewrite toggleAssignment_add, elem_of_app, list_elem_of_singleton by done.
      tauto.
  - destruct (decide (personId ∈ assignedTo item)) as [Hin|Hnot].
    + destruct (decide (1 < length (assignedTo item))) as [Hlen|Hlen].
      * rewrite toggleAssignment_remove, list_elem_of_filter by done.
        split; [by intros [? _] | intros [?|?]; [done | lia]].
      * unfold toggleAssignment, includes.
        rewrite bool_decide_eq_true_2, bool_decide_eq_false_2 by done.
        split; [intros _; right; lia | done].
    + rewrite toggleAssignment_add, elem_of_app, list_elem_of_singleton by done.
      split; [by left | by right].
Qed.

Lemma toggleItemAssignment_membership_witness :
  let item := mkBillItem (lit "Item 1") (Fin (Q2Qc 20)) true [lit "1"; lit "2"] in
  let item' := mkBillItem (lit "Item 1") (Fin (Q2Qc 20)) true [lit "1"] in
  let st := setItems [item] initialState in
  let st' := setItems [item'] initialState in
  toggleItemAssignment 0 (lit "2") st = Some st' ∧
  items st !! 0 = Some item ∧
  items st' !! 0 = Some item' ∧
  (∀ q, q ≠ lit "2" → (q ∈ assignedTo item' ↔ q ∈ assignedTo item)) ∧
  (lit "2" ∈ assignedTo item' ↔
     lit "2" ∉ assignedTo item ∨ length (assignedTo item) ≤ 1) ∧
  (NoDup (assignedTo item) → NoDup (assignedTo item')).
Proof.
  intros item item' st st'.
  assert (H1 : toggleItemAssignment 0 (lit "2") st = Some st')
    by (vm_compute; reflexivity).
  assert (H2 : items st !! 0 = Some item) by reflexivity.
  assert (H3 : items st' !! 0 = Some item') by reflexivity.
  split; [exact H1|]. split; [exact H2|]. split; [exact H3|].
  exact (toggleItemAssignment_membership 0 (lit "2") st st' item item' H1 H2 H3).
Defined.

(** X12: toggling the same person twice on an item that is assigned
    without repetition to at least one person gives the item its
    assignees back, up to their order, and changes nothing else. *)
Theorem toggleItemAssignment_twice (i : nat) (personId : jsstring)
    (st : State) (item : BillItem) :
  items st !! i = Some item →
  NoDup (assignedTo item) →
  assignedTo item ≠ [] →
  ∃ (st1 st2 : State) (item2 : BillItem),
    toggleItemAssignment i personId st = Some st1 ∧
    toggleItemAssignment i personId st1 = Some st2 ∧
    items st2 !! i = Some item2 ∧
    assignedTo item2 ≡ₚ assignedTo item ∧
    description item2 = description item ∧
    amount item2 = amount item ∧
    includedInSplit item2 = includedInSplit item ∧
    (∀ j, j ≠ i → items st2 !! j = items st !! j) ∧
    people st2 = people st.
Proof.
  intros Hi Hnodup Hne. pose proof (lookup_lt_Some _ _ _ Hi) as Hlt.
  eexists _, _, (toggleAssignment personId (toggleAssignment personId item)).
  split; [unfold toggleItemAssignment; by rewrite Hi|].
  split.
  { unfold toggleItemAssignment. cbn [items setItems].
    rewrite list_lookup_insert_eq by done. cbn [mbind option_bind].
    by rewrite list_insert_insert_eq. }
  cbn [items people setItems].
  split; [by apply list_lookup_insert_eq|].
  split; [by apply toggleAssignment_twice|].
  destruct (toggleAssignment_fields personId (toggleAssignment personId item))
    as (-> & -> & ->).
  destruct (toggleAssignment_fields personId item) as (-> & -> & ->).
  repeat split; try done. intros j Hj. by apply list_lookup_insert_ne.
Qed.

Lemma toggleItemAssignment_twice_witness :
  let item := mkBillItem (lit "Item 1") (Fin (Q2Qc 20)) true [lit "1"; lit "2"] in
  let st := setItems [item] initialState in
  items st !! 0 = Some item ∧
  NoDup (assignedTo item) ∧
  assignedTo item ≠ [] ∧
  ∃ (st1 st2 : State) (item2 : BillItem),
    toggleItemAssignment 0 (lit "1") st = Some st1 ∧
    toggleItemAssignment 0 (lit "1") st1 = Some st2 ∧
    items st2 !! 0 = Some item2 ∧
    assignedTo item2 ≡ₚ assignedTo item ∧
    description item2 = description item ∧
    amount item2 = amount item ∧
    includedInSplit item2 = includedInSplit item ∧
    (∀ j, j ≠ 0 → items st2 !! j = items st !! j) ∧
    people st2 = people st.
Proof.
  intros item st.
  assert (H1 : items st !! 0 = Some item) by reflexivity.
  assert (H2 : NoDup (assignedTo item)) by by_evaluation.
  assert (H3 : assignedTo item ≠ []) by by_evaluation.
  split; [exact H1|]. split; [exact H2|]. split; [exact H3|].
  exact (toggleItemAssignment_twice 0 (lit "1") st item H1 H2 H3).
Defined.

(** ** Totals and shares *)

Lemma calculateTotal_app (l1 l2 : list BillItem) :
  calculateTotal (l1 ++ l2)
    = Number.add (calculateTotal l1) (calculateTotal l2).
Proof.
  induction l1 as [|item l1 IH]; [by rewrite add_zero_l|].
  rewrite <-app_comm_cons, !calculateTotal_cons, IH.
  destruct (includedInSplit item); [by rewrite add_assoc | done].
Qed.

(** The total and the shares read the amount, the flag and the assignees
    of an item, not its description. *)
Lemma calculate_row_replaced (l : list BillItem) (i : nat)
    (item item' : BillItem) :
  l !! i = Some item →
  amount item' = amount item →
  includedInSplit item' = includedInSplit item →
  assignedTo item' = assignedTo item →
  calculateTotal (<[i := item']> l) = calculateTotal l ∧
  ∀ personId,
    calculatePerPerson (<[i := item']> l) personId
      = calculatePerPerson l personId.
Proof.
  intros Hi Ha Hinc Has. pose proof (lookup_lt_Some _ _ _ Hi) as Hlt.
  pose proof (take_drop_middle l i item Hi) as Hl.
  rewrite insert_take_drop by done.
  set (a := take i l) in *. set (b := drop (S i) l) in *. rewrite <-Hl.
  split; [|intros personId].
  - rewrite !calculateTotal_app, !calculateTotal_cons. by rewrite Ha, Hinc.
  - rewrite !calculatePerPerson_app, !calculatePerPerson_cons.
    by rewrite Ha, Hinc, Has.
Qed.

(** X13: editing the description of a row changes the description of
    that row only, and neither the total nor anyone's share. *)
Theorem onDescriptionChange_keeps_amounts (i : nat) (value : jsstring)
    (st st' : State) :
  onDescriptionChange i value st = Some st' →
  (∃ item, items st !! i = Some item ∧
     items st' = <[i := mkBillItem value (amount item) (includedInSplit item)
                           (assignedTo item)]> (items st)) ∧
  people st' = people st ∧
  calculateTotal (items st') = calculateTotal (items st) ∧
  ∀ personId,
    calculatePerPerson (items st') personId
      = calculatePerPerson (items st) personId.
Proof.
  unfold onDescriptionChange. destruct (items st !! i) as [item|] eqn:Hi; [|done].
  intros [= <-]. cbn [items people setItems].
  split; [by exists item|]. split; [done|]. by apply (calculate_row_replaced _ _ item).
Qed.

Lemma onDescriptionChange_keeps_amounts_witness :
  let st := setItems
    [mkBillItem (lit "Item 1") (Fin (Q2Qc 20)) true [lit "1"; lit "2"];
     mkBillItem (lit "Item 2") (Fin (Q2Qc 5)) true [lit "2"]] initialState in
  let st' := setItems
    [mkBillItem (lit "Item 1") (Fin (Q2Qc 20)) true [lit "1"; lit "2"];
     mkBillItem (lit "Tea") (Fin (Q2Qc 5)) true [lit "2"]] initialState in
  onDescriptionChange 1 (lit "Tea") st = Some st' ∧
  (∃ item, items st !! 1 = Some item ∧
     items st' = <[1 := mkBillItem (lit "Tea") (amount item)
                           (includedInSplit item) (assignedTo item)]> (items st)) ∧
  people st' = people st ∧
  calculateTotal (items st') = calculateTotal (items st) ∧
  ∀ personId,
    calculatePerPerson (items st') personId
      = calculatePerPerson (items st) personId.
Proof.
  intros st st'.
  assert (H1 : onDescriptionChange 1 (lit "Tea") st = Some st')
    by (vm_compute; reflexivity).
  split; [exact H1|].
  exact (onDescriptionChange_keeps_amounts 1 (lit "Tea") st st' H1).
Defined.

Lemma excluded_item_skipped (l1 l2 : list BillItem) (item : BillItem) :
  includedInSplit item = false →
  calculateTotal (l1 ++ item :: l2) = calculateTotal (l1 ++ l2) ∧
  ∀ personId,
    calculatePerPerson (l1 ++ item :: l2) personId
      = calculatePerPerson (l1 ++ l2) personId.
Proof.
  intros Hinc. split; [|intros personId].
  - by rewrite !calculateTotal_app, calculateTotal_cons, Hinc.
  - by rewrite !calculatePerPerson_app, calculatePerPerson_cons, Hinc.
Qed.

(** X14: once the box of a row is unchecked, the total and every share
    are those of the list without that row. *)
Theorem unchecked_row_counts_for_nothing (i : nat) (st st' : State) :
  onIncludeChange i false st = Some st' →
  calculateTotal (items st') = calculateTotal (delete i (items st)) ∧
  ∀ personId,
    calculatePerPerson (items st') personId
      = calculatePerPerson (delete i (items st)) personId.
Proof.
  unfold onIncludeChange. destruct (items st !! i) as [item|] eqn:Hi; [|done].
  intros [= <-]. cbn [items setItems].
  rewrite insert_take_drop, delete_take_drop by by eapply lookup_lt_Some.
  by apply excluded_item_skipped.
Qed.

Lemma unchecked_row_counts_for_nothing_witness :
  let st := setItems
    [mkBillItem (lit "Item 1") (Fin (Q2Qc 20)) true [lit "1"; lit "2"];
     mkBillItem (lit "Item 2") (Fin (Q2Qc 5)) true [lit "2"]] initialState in
  let st' := setItems
    [mkBillItem (lit "Item 1") (Fin (Q2Qc 20)) false [lit "1"; lit "2"];
     mkBillItem (lit "Item 2") (Fin (Q2Qc 5)) true [lit "2"]] initialState in
  onIncludeChange 0 false st = Some st' ∧
  calculateTotal (items st') = calculateTotal (delete 0 (items st)) ∧
  ∀ personId,
    calculatePerPerson (items st') personId
      = calculatePerPerson (delete 0 (items st)) personId.
Proof.
  intros st st'.
  assert (H1 : onIncludeChange 0 false st = Some st') by (vm_compute; reflexivity).
  split; [exact H1|].
  exact (unchecked_row_counts_for_nothing 0 st st' H1).
Defined.

(** X15: two people who are assigned to the same included items owe the
    same. *)
Theorem same_assignments_same_share (items : list BillItem)
    (p q : jsstring) :
  Forall (λ item, includedInSplit item →
            (p ∈ assignedTo item ↔ q ∈ assignedTo item)) items →
  calculatePerPerson items p = calculatePerPerson items q.
Proof.
  induction 1 as [|item items Hpq _ IH]; [done|].
  rewrite !calculatePerPerson_cons, IH. unfold includes.
  destruct (includedInSplit item); [|done]. cbn [andb].
  specialize (Hpq I). by rewrite (bool_decide_ext _ _ Hpq).
Qed.

Lemma same_assignments_same_share_witness :
  let items :=
    [mkBillItem (lit "Item 1") (Fin (Q2Qc 20)) true [lit "1"; lit "2"; lit "3"];
     mkBillItem (lit "Item 2") (Fin (Q2Qc 5)) true [lit "3"];
     mkBillItem (lit "Item 3") (Fin (Q2Qc 7)) false [lit "1"]] in
  Forall (λ item, includedInSplit item →
            (lit "1" ∈ assignedTo item ↔ lit "2" ∈ assignedTo item)) items ∧
  calculatePerPerson items (lit "1") = calculatePerPerson items (lit "2").
Proof.
  intros items.
  assert (H1 : Forall (λ item, includedInSplit item →
            (lit "1" ∈ assignedTo item ↔ lit "2" ∈ assignedTo item)) items)
    by by_evaluation.
  split; [exact H1|].
  exact (same_assignments_same_share items (lit "1") (lit "2") H1).
Defined.

Lemma of_nat_pos (n : nat) : n ≠ 0 → (0 < Qc_of_Z (Z.of_nat n))%Qc.
Proof.
  intros Hn. rewrite <-Z2Qc_inj_0.
  apply (proj1 (Z2Qc_inj_lt 0 (Z.of_nat n))). lia.
Qed.

(** A part of a non-negative amount lies between nothing and the amount. *)
Lemma part_bounds (q : Qc) (n : nat) :
  n ≠ 0 → (0 ≤ q)%Qc →
  (0 ≤ q / Qc_of_Z (Z.of_nat n))%Qc ∧ (q / Qc_of_Z (Z.of_nat n) ≤ q)%Qc.
Proof.
  intros Hn Hq. pose proof (of_nat_pos n Hn) as Hpos.
  pose proof (of_nat_nonzero n Hn) as Hnz.
  set (x := Qc_of_Z (Z.of_nat n)) in *.
  assert (1 ≤ x)%Qc as Hone.
  { subst x. rewrite <-Z2Qc_inj_1.
    apply (proj1 (Z2Qc_inj_le 1 (Z.of_nat n))). lia. }
  split.
  - apply (Qcmult_le_mono_pos_r _ _ x Hpos).
    by rewrite test_field, Qcmult_0_l by done.
  - apply (Qcmult_le_mono_pos_r _ _ x Hpos). rewrite test_field by done.
    rewrite <-(Qcmult_1_r q) at 1. by apply Qcmult_le_mono_nonneg_l.
Qed.

(** X16: when the amounts are finite and not negative, the total and
    every share are finite, and a share lies between 0 and the total. *)
Theorem share_between_zero_and_total (items : list BillItem)
    (personId : jsstring) :
  Forall (λ item, ∃ q : Qc, amount item = Fin q ∧ (0 ≤ q)%Qc) items →
  ∃ s t : Qc,
    calculatePerPerson items personId = Fin s ∧
    calculateTotal items = Fin t ∧
    (0 ≤ s)%Qc ∧ (s ≤ t)%Qc.
Proof.
  induction 1 as [|item items (q & Hq & Hq0) _ (s & t & Hs & Ht & Hs0 & Hst)].
  { by exists 0%Qc, 0%Qc. }
  rewrite calculatePerPerson_cons, calculateTotal_cons, Hs, Ht, Hq.
  destruct (includedInSplit item); cbn [andb]; [|by exists s, t].
  destruct (includes (assignedTo item) personId) eqn:Hin.
  - assert (length (assignedTo item) ≠ 0) as Hn.
    { apply (includes_nonempty _ personId). by rewrite Hin. }
    destruct (part_bounds q _ Hn Hq0) as [Hp0 Hpq].
    unfold Number.div, Number.of_nat.
    rewrite bool_decide_eq_false_2 by by apply of_nat_nonzero.
    eexists _, _. split; [done|]. split; [done|].
    split; [by apply Qcplus_nonneg_nonneg | by apply Qcplus_le_compat].
  - exists s, (q + t)%Qc. split; [done|]. split; [done|]. split; [done|].
    etrans; [exact Hst|]. rewrite <-(Qcplus_0_l t) at 1.
    by apply Qcplus_le_mono_r.
Qed.

Lemma share_between_zero_and_total_witness :
  let items :=
    [mkBillItem (lit "Item 1") (Fin (Q2Qc 20)) true [lit "1"; lit "2"; lit "3"];
     mkBillItem (lit "Item 2") (Fin (Q2Qc 0)) true [lit "3"];
     mkBillItem (lit "Item 3") (Fin (Q2Qc 7)) false [lit "1"]] in
  Forall (λ item, ∃ q : Qc, amount item = Fin q ∧ (0 ≤ q)%Qc) items ∧
  ∃ s t : Qc,
    calculatePerPerson items (lit "1") = Fin s ∧
    calculateTotal items = Fin t ∧
    (0 ≤ s)%Qc ∧ (s ≤ t)%Qc.
Proof.
  intros items.
  assert (H1 : Forall (λ item, ∃ q : Qc, amount item = Fin q ∧ (0 ≤ q)%Qc) items).
  { repeat apply Forall_cons_2; [| | |apply Forall_nil_2];
      (eexists; split; [reflexivity | by vm_compute]). }
  split; [exact H1|].
  exact (share_between_zero_and_total items (lit "1") H1).
Defined.

(** ** Invariants of the sessions *)

Lemma newItems_amountsAccepted (ppl : list Person) (text : jsstring) :
  Forall (λ item, priceAccepted (amount item))
    (newItems ppl (collectPrices text)).
Proof.
  apply Forall_forall. intros item (k & Hk)%list_elem_of_lookup_1.
  unfold newItems in Hk. rewrite list_lookup_imap in Hk.
  destruct (collectPrices text !! k) as [c|] eqn:Hc; [|done].
  injection Hk as <-. cbn [amount].
  apply (survivingCandidates_accepted text). rewrite <-collectPrices_spec.
  by eapply list_elem_of_lookup_2.
Qed.

Lemma handle_amountsAccepted (st : State) (a : Action) :
  amountsAccepted st → amountsAccepted (handle st a).
Proof.
  intros Hst.
  destruct a as [|id|id newName|file ocr|i personId|i b|i v| | | | |];
    cbn [handle]; try done.
  - unfold removePerson. case_bool_decide; [|done].
    unfold amountsAccepted. cbn [items setItems]. rewrite Forall_fmap.
    eapply Forall_impl; [exact Hst | done].
  - unfold handleFileUpload. destruct file as [f|]; [|done].
    destruct (isImage f); [|done]. unfold processImage, processImageSettled.
    destruct ocr as [|text throws]; [done|].
    assert (amountsAccepted (extractItems (people st) text
      (readerOnload (dataUrl f) (processImageStart st)))) as Hnew.
    { unfold extractItems. case_bool_decide; [|done].
      apply newItems_amountsAccepted. }
    by destruct throws.
  - unfold toggleItemAssignment. destruct (items st !! i) as [item|] eqn:Hi; [|done].
    cbn [mbind option_bind default]. unfold amountsAccepted. cbn [items setItems].
    apply Forall_insert; [exact Hst|].
    destruct (toggleAssignment_fields personId item) as (_ & -> & _).
    exact (Forall_lookup_1 _ _ _ _ Hst Hi).
  - unfold onIncludeChange. destruct (items st !! i) as [item|] eqn:Hi; [|done].
    cbn [mbind option_bind default]. unfold amountsAccepted. cbn [items setItems].
    apply Forall_insert; [exact Hst|]. cbn [amount].
    exact (Forall_lookup_1 _ _ _ _ Hst Hi).
  - unfold onDescriptionChange. destruct (items st !! i) as [item|] eqn:Hi; [|done].
    cbn [mbind option_bind default]. unfold amountsAccepted. cbn [items setItems].
    apply Forall_insert; [exact Hst|]. cbn [amount].
    exact (Forall_lookup_1 _ _ _ _ Hst Hi).
  - by apply Forall_nil.
Qed.

(** Whatever comes next, and whenever the reports of the readers and of
    the workers come in, the amounts stay accepted prices. *)
Lemma step_amountsAccepted (s : Session) (a : Action) :
  amountsAccepted (current s) → amountsAccepted (current (step s a)).
Proof.
  intros Hs.
  destruct a as [|id|id newName|file ocr|i personId|i b|i v| |file|k|k text|k throws];
    cbn [step current]; try by apply handle_amountsAccepted.
  - unfold fileChosen. destruct file as [f|]; [|done]. by destruct (isImage f).
  - by destruct (readers s !! k).
  - destruct (uploads s !! k) as [[people0|]|]; [|done..].
    destruct text as [text|]; [|done]. cbn [current].
    unfold extractItems. case_bool_decide; [|done].
    apply newItems_amountsAccepted.
  - destruct (uploads s !! k) as [[people0|]|]; [done| |done].
    by destruct throws.
Qed.

Lemma reachable_amountsAccepted (st : State) :
  reachable st → amountsAccepted st.
Proof.
  intros (s & Hs & <-). induction Hs as [|s a _ IH _ _].
  - by apply Forall_nil.
  - by apply step_amountsAccepted.
Qed.

Lemma calculateTotal_isFinite (items : list BillItem) :
  Forall (λ item, Number.isFinite (amount item)) items →
  Number.isFinite (calculateTotal items).
Proof.
  induction 1 as [|item items Hfin _ IH]; [done|].
  rewrite calculateTotal_cons. destruct (includedInSplit item); [|done].
  by apply add_isFinite.
Qed.



(** X18: in every state of a session, every amount is a number between
    0.50 and 1000, so the total and every share are finite: the page
    shows neither NaN nor an infinity. *)
Theorem session_amounts_are_prices (st : State) :
  reachable st →
  Forall (λ item, ∃ q : Qc, amount item = Fin q ∧
                    (Q2Qc (1 # 2) ≤ q)%Qc ∧ (q ≤ Q2Qc 1000)%Qc) (items st) ∧
  Number.isFinite (calculateTotal (items st)) ∧
  ∀ personId, Number.isFinite (calculatePerPerson (items st) personId).
Proof.
  intros Hreach%reachable_amountsAccepted. unfold amountsAccepted in Hreach.
  assert (Forall (λ item, Number.isFinite (amount item)) (items st)) as Hfin.
  { eapply Forall_impl; [exact Hreach|].
    by intros item (q & -> & _)%priceAccepted_range. }
  split; [|split].
  - eapply Forall_impl; [exact Hreach|]. intros item. apply priceAccepted_range.
  - by apply calculateTotal_isFinite.
  - intros personId. by apply calculatePerPerson_isFinite.
Qed.

Lemma session_amounts_are_prices_witness :
  let st := run [HandleFileUpload (Some imageFile)
                   (Recognized (receipt ["Coffee 3.50"; "Tea $12"]) false);
                 IncludeChange 0 false] in
  reachable st ∧
  Forall (λ item, ∃ q : Qc, amount item = Fin q ∧
                    (Q2Qc (1 # 2) ≤ q)%Qc ∧ (q ≤ Q2Qc 1000)%Qc) (items st) ∧
  Number.isFinite (calculateTotal (items st)) ∧
  ∀ personId, Number.isFinite (calculatePerPerson (items st) personId).
Proof.
  intros st.
  assert (H1 : reachable st) by (subst st; session).
  split; [exact H1|]. exact (session_amounts_are_prices st H1).
Defined.

Lemma numbered_ids_NoDup (st : State) :
  numbered st → NoDup (Person.id <$> people st).
Proof. intros [-> _]. apply (NoDup_fmap_2 toString), NoDup_seq. Qed.

Lemma numbered_insert (st : State) (i : nat) (item item' : BillItem) :
  numbered st → items st !! i = Some item →
  (assignedTo item' ≠ [] ∧ NoDup (assignedTo item') ∧
   assignedTo item' ⊆ Person.id <$> people st) →
  numbered (setItems (<[i := item']> (items st)) st).
Proof.
  intros (Hids & Hlen & Hitems) Hi Hitem'. unfold numbered.
  cbn [items people setItems]. split; [done|]. split; [done|].
  by apply Forall_insert.
Qed.

(** When [processImage] resumes with the text, the people it closes over
    are among the people listed, as long as nobody was removed. *)
Lemma extractItems_numbered (people0 : list Person) (text : jsstring)
    (st : State) :
  numbered st → uploadNumbered (length (people st)) (Recognizing people0) →
  numbered (extractItems people0 text st).
Proof.
  intros (Hids & Hlen & Hitems) (Hids0 & Hlen0 & Hle).
  unfold extractItems. case_bool_decide; [|done].
  unfold numbered, newItems. cbn [items people setItems].
  split; [done|]. split; [done|].
  apply Forall_forall. intros item (k & Hk)%list_elem_of_lookup_1.
  rewrite list_lookup_imap in Hk.
  destruct (collectPrices text !! k); [|done]. injection Hk as <-.
  cbn [assignedTo]. split; [|split].
  - destruct people0 as [|p people0]; [simpl in Hlen0; lia | done].
  - rewrite Hids0. apply (NoDup_fmap_2 toString), NoDup_seq.
  - rewrite Hids0, Hids. intros x (n & -> & Hn)%list_elem_of_fmap.
    apply list_elem_of_fmap. exists n. split; [done|].
    apply elem_of_seq. apply elem_of_seq in Hn. lia.
Qed.

Lemma handle_numbered (st : State) (a : Action) :
  numbered st → isNotRemoval a → enabled st a → numbered (handle st a).
Proof.
  intros Hst Ha Hoff. pose proof Hst as (Hids & Hlen & Hitems).
  destruct a as [|id|id newName|file ocr|i personId|i b|i v| | | | |];
    cbn [handle enabled isNotRemoval] in *; try done.
  - unfold numbered, addPerson. cbn [items people setPeople].
    rewrite fmap_app, length_app, Hids. cbn [length fmap list_fmap Person.id].
    split; [|split; [lia|]].
    + by rewrite seq_app, fmap_app, Nat.add_comm.
    + eapply Forall_impl; [exact Hitems|].
      intros item (Hne & Hnodup & Hsub). split; [done|]. split; [done|].
      intros x Hx. apply elem_of_app. left. rewrite <-Hids. by apply Hsub.
  - unfold numbered. rewrite updatePersonName_ids.
    unfold updatePersonName. cbn [items people setPeople].
    by rewrite length_fmap.
  - unfold handleFileUpload. destruct file as [f|]; [|done].
    destruct (isImage f); [|done]. unfold processImage, processImageSettled.
    destruct ocr as [|text throws]; [done|].
    assert (numbered (extractItems (people st) text
      (readerOnload (dataUrl f) (processImageStart st)))) as Hnew.
    { apply extractItems_numbered; [done|].
      cbn [people readerOnload processImageStart setImagePreview setError
           setIsProcessing]. split; [done | lia]. }
    by destruct throws.
  - apply andb_True in Hoff as [Hi%bool_decide_unpack Hp%bool_decide_unpack].
    unfold toggleItemAssignment.
    destruct (lookup_lt_is_Some_2 _ _ Hi) as [item Hitem]. rewrite Hitem.
    cbn [mbind option_bind default].
    destruct (Forall_lookup_1 _ _ _ _ Hitems Hitem) as (Hne & Hnodup & Hsub).
    apply (numbered_insert st i item); [done | done |].
    split; [by apply toggleAssignment_nonempty|].
    split; [by apply toggleAssignment_NoDup | by apply toggleAssignment_subseteq].
  - apply bool_decide_unpack in Hoff. unfold onIncludeChange.
    destruct (lookup_lt_is_Some_2 _ _ Hoff) as [item Hitem]. rewrite Hitem.
    cbn [mbind option_bind default]. apply (numbered_insert st i item); [done..|].
    exact (Forall_lookup_1 _ _ _ _ Hitems Hitem).
  - apply bool_decide_unpack in Hoff. unfold onDescriptionChange.
    destruct (lookup_lt_is_Some_2 _ _ Hoff) as [item Hitem]. rewrite Hitem.
    cbn [mbind option_bind default]. apply (numbered_insert st i item); [done..|].
    exact (Forall_lookup_1 _ _ _ _ Hitems Hitem).
Qed.

(** Without a removal the people listed do not become fewer. *)
Lemma handle_people_length (st : State) (a : Action) :
  isNotRemoval a → length (people st) ≤ length (people (handle st a)).
Proof.
  intros Ha.
  destruct a as [|id|id newName|file ocr|i personId|i b|i v| | | | |];
    cbn [handle isNotRemoval] in *; try done.
  - unfold addPerson. cbn [people setPeople]. rewrite length_app. lia.
  - unfold updatePersonName. cbn [people setPeople]. by rewrite length_fmap.
  - by rewrite handleFileUpload_people.
  - unfold toggleItemAssignment. by destruct (items st !! i).
  - unfold onIncludeChange. by destruct (items st !! i).
  - unfold onDescriptionChange. by destruct (items st !! i).
Qed.

Lemma uploadNumbered_mono (n m : nat) (u : Upload) :
  n ≤ m → uploadNumbered n u → uploadNumbered m u.
Proof. intros Hle. destruct u as [people0|]; [|done]. intros (? & ? & ?). split; [done | lia]. Qed.

(** One event of a session in which nobody is removed, whenever the
    reports of the readers and of the workers come in. *)
Lemma step_numbered (s : Session) (a : Action) :
  numbered (current s) → uploadsNumbered s →
  isNotRemoval a → offered s a →
  numbered (current (step s a)) ∧ uploadsNumbered (step s a).
Proof.
  intros Hst Hup Ha Hoff. unfold uploadsNumbered in *.
  assert (isUninterrupted a →
    numbered (current (step s a)) ∧
    Forall (uploadNumbered (length (people (current (step s a)))))
      (uploads (step s a))) as Huser.
  { intros Hu. destruct (step_uninterrupted s a Hu) as [-> Heq].
    rewrite Heq in Hoff. cbn [current uploads]. split.
    - by apply handle_numbered.
    - eapply Forall_impl; [exact Hup|]. intros u.
      by apply uploadNumbered_mono, handle_people_length. }
  destruct a as [|id|id newName|file ocr|i personId|i b|i v| |file|k|k text|k throws];
    try (by apply Huser); clear Huser; cbn [step].
  - unfold fileChosen. destruct file as [f|]; [|done].
    destruct (isImage f); [|done]. cbn [current uploads]. split; [done|].
    apply Forall_app. split; [exact Hup|]. apply Forall_singleton.
    destruct Hst as (Hids & Hlen & _).
    cbn [people processImageStart setError setIsProcessing].
    split; [done | split; [done | lia]].
  - by destruct (readers s !! k).
  - destruct (uploads s !! k) as [[people0|]|] eqn:Hk; [|done..].
    pose proof (Forall_lookup_1 _ _ _ _ Hup Hk) as Hu.
    destruct text as [text|]; cbn [current uploads].
    + split; [by apply extractItems_numbered|].
      destruct (extractItems_frame people0 text (current s)) as [-> _].
      by apply Forall_insert.
    + split; [done|]. by apply Forall_delete.
  - destruct (uploads s !! k) as [[people0|]|] eqn:Hk; [done| |done].
    cbn [current uploads]. split; [by destruct throws|].
    replace (people (processImageEnd throws (current s)))
      with (people (current s)) by by destruct throws.
    by apply Forall_delete.
Qed.

Lemma sessionBy_numbered (s : Session) :
  sessionBy isNotRemoval s → numbered (current s) ∧ uploadsNumbered s.
Proof.
  induction 1 as [|s a _ [IH1 IH2] Ha Hoff].
  - split; [|by apply Forall_nil].
    split; [done|]. split; [done|]. by apply Forall_nil.
  - by apply step_numbered.
Qed.

Lemma reachable_numbered (st : State) :
  reachableBy isNotRemoval st → numbered st.
Proof. intros (s & Hs & <-). by apply sessionBy_numbered. Qed.

(** X19: as long as nobody is removed, the ids of the people are the
    numbers from 1 to their count, which is at least two, and they are
    pairwise distinct. *)
Theorem ids_without_removal (st : State) :
  reachableBy isNotRemoval st →
  Person.id <$> people st = toString <$> seq 1 (length (people st)) ∧
  2 ≤ length (people st) ∧
  NoDup (Person.id <$> people st).
Proof.
  intros Hst%reachable_numbered. pose proof (numbered_ids_NoDup st Hst).
  by destruct Hst as (? & ? & _).
Qed.

Lemma ids_without_removal_witness :
  let st := run [AddPerson; UpdatePersonName (lit "3") (lit "Ann");
                 HandleFileUpload (Some imageFile)
                   (Recognized (receipt ["Coffee 3.50"; "Tea $12"]) false);
                 AddPerson] in
  reachableBy isNotRemoval st ∧
  Person.id <$> people st = toString <$> seq 1 (length (people st)) ∧
  2 ≤ length (people st) ∧
  NoDup (Person.id <$> people st).
Proof.
  intros st.
  assert (H1 : reachableBy isNotRemoval st) by (subst st; session).
  split; [exact H1|]. exact (ids_without_removal st H1).
Defined.

(** X20: as long as nobody is removed, also while uploads are under way,
    every item is assigned to at least one person, to nobody twice and
    only to people listed; the people who are charged a part of it are
    as many as the parts it is divided in. *)
Theorem assignments_without_removal (st : State) :
  reachableBy isNotRemoval st →
  Forall (λ item, assignedTo item ≠ []) (items st) ∧
  Forall (λ item, NoDup (assignedTo item) ∧
                  assignedTo item ⊆ Person.id <$> people st ∧
                  length (filter (λ p, Person.id p ∈ assignedTo item) (people st))
                    = length (assignedTo item)) (items st).
Proof.
  intros Hst%reachable_numbered. pose proof (numbered_ids_NoDup st Hst) as Hnodup.
  destruct Hst as (_ & _ & Hitems). split.
  - eapply Forall_impl; [exact Hitems|]. by intros item (? & _).
  - eapply Forall_impl; [exact Hitems|]. intros item (Hne & Hnd & Hsub).
    split; [done|]. split; [done|]. by apply assignees_counted.
Qed.

Lemma assignments_without_removal_witness :
  let st := run [AddPerson;
                 FileChosen (Some imageFile);
                 AddPerson;
                 OcrSettles 0 (Some (receipt ["Coffee 3.50"; "Tea $12"]));
                 ToggleItemAssignment 0 (lit "2");
                 IncludeChange 1 false;
                 TerminateSettles 0 false] in
  reachableBy isNotRemoval st ∧
  assignedTo <$> items st = [[lit "1"; lit "3"]; [lit "1"; lit "2"; lit "3"]] ∧
  Person.id <$> people st = [lit "1"; lit "2"; lit "3"; lit "4"] ∧
  Forall (λ item, assignedTo item ≠ []) (items st) ∧
  Forall (λ item, NoDup (assignedTo item) ∧
                  assignedTo item ⊆ Person.id <$> people st ∧
                  length (filter (λ p, Person.id p ∈ assignedTo item) (people st))
                    = length (assignedTo item)) (items st).
Proof.
  intros st.
  assert (H1 : reachableBy isNotRemoval st) by (subst st; session).
  split; [exact H1|]. split; [by vm_compute|]. split; [by vm_compute|].
  exact (assignments_without_removal st H1).
Defined.

(** X21: when more than two people are listed, [removePerson] takes away
    everyone who carries the id, however many they are; when all of them
    carry it, nobody is left. *)
Theorem removePerson_removes_all_carriers (id : jsstring) (st : State) :
  2 < length (people st) →
  length (people (removePerson id st))
    + length (filter (λ p, Person.id p = id) (people st))
    = length (people st) ∧
  Forall (λ p, Person.id p ≠ id) (people (removePerson id st)) ∧
  (Forall (λ p, Person.id p = id) (people st) →
   people (removePerson id st) = []).
Proof.
  intros Hlen. destruct (removePerson_allowed id st Hlen) as [-> _].
  split; [|split].
  - clear Hlen. induction (people st) as [|p ppl IH]; [done|].
    rewrite !filter_cons. destruct (decide (Person.id p = id)) as [Heq|Hne].
    + rewrite decide_False by (intros H; by apply H). cbn [length]. lia.
    + rewrite decide_True by done. cbn [length]. lia.
  - apply Forall_forall. by intros p [? _]%list_elem_of_filter.
  - intros Hall. clear Hlen. induction Hall as [|p ppl Hp _ IH]; [done|].
    by rewrite filter_cons, decide_False by (intros H; by apply H).
Qed.

Lemma removePerson_removes_all_carriers_witness :
  let st := run [AddPerson; RemovePerson (lit "1"); AddPerson;
                 RemovePerson (lit "2"); AddPerson] in
  let id := lit "3" in
  reachableByPeopleActions st ∧
  Person.id <$> people st = [lit "3"; lit "3"; lit "3"] ∧
  2 < length (people st) ∧
  length (people (removePerson id st))
    + length (filter (λ p, Person.id p = id) (people st))
    = length (people st) ∧
  Forall (λ p, Person.id p ≠ id) (people (removePerson id st)) ∧
  (Forall (λ p, Person.id p = id) (people st) →
   people (removePerson id st) = []).
Proof.
  intros st id.
  assert (H0 : reachableByPeopleActions st) by (subst st; session).
  assert (H1 : 2 < length (people st)) by (vm_compute; lia).
  split; [exact H0|]. split; [by vm_compute|]. split; [exact H1|].
  exact (removePerson_removes_all_carriers id st H1).
Defined.

(** X22: in a line that ends with a point followed by digits, one digit
    or more than two, the match of the price pattern is those digits
    alone: what stands before the point is not part of the price. *)
Theorem priceMatch_after_point (pre fp : jsstring) :
  Forall isDigit fp → fp ≠ [] → length fp ≠ 2 →
  Regex.priceMatch (pre ++ 46%N :: fp) = Some (fp, fp).
Proof.
  intros Hfp Hne Hlen.
  assert (tokenShape fp) as Htok.
  { exists fp. split; [done|]. split; [done|]. by left. }
  assert (46%N ∉ fp) as Hnodot.
  { intros Hin. rewrite Forall_forall in Hfp. by specialize (Hfp _ Hin). }
  pose proof (priceMatch_longest (pre ++ 46%N :: fp)) as Hspec.
  destruct (Regex.priceMatch (pre ++ 46%N :: fp)) as [[whole g]|].
  2: { destruct (Hspec fp); [|done].
       apply suffix_app_r, suffix_cons_r. done. }
  destruct Hspec as (Hsuf & (m0 & m1 & -> & Hm0 & Hm1) & Hg & Hlongest).
  assert (g `suffix_of` (pre ++ [46%N]) ++ fp) as Hsuf'.
  { rewrite <-app_assoc. cbn [app]. rewrite app_assoc in Hsuf.
    by eapply suffix_app_l. }
  assert (length fp ≤ length g) as Hle.
  { apply Hlongest; [|done]. apply suffix_app_r, suffix_cons_r. done. }
  assert (g = fp) as ->.
  { destruct (decide (length fp < length g)) as [Hlt|Hge].
    - exfalso. apply suffix_app_longer in Hsuf' as (x & Hx & -> & Hxpre); [|done].
      destruct (last x) as [c|] eqn:Hlast; [|by apply last_None in Hlast].
      assert (c = 46%N) as ->.
      { destruct Hxpre as [k Hk]. apply (f_equal last) in Hk.
        rewrite last_snoc, last_app, Hlast in Hk. by injection Hk. }
      apply last_Some in Hlast as [x' ->]. rewrite <-app_assoc in Hg.
      destruct Hg as (ip & _ & Hip & [Heq|(d1 & d2 & Hd1 & Hd2 & Heq)]).
      + rewrite Forall_forall in Hip. specialize (Hip 46%N).
        rewrite <-Heq in Hip. apply Hip. rewrite elem_of_app. right. by left.
      + cbn [app] in Heq.
        assert (46%N ∉ [d1; d2]) as Hnd.
        { intros [<-|[<-|[]%elem_of_nil]%elem_of_cons]%elem_of_cons; done. }
        destruct (not_elem_of_app_cons_inv_r _ _ _ _ _ _ Hnd Hnodot Heq)
          as (_ & _ & Hfp2).
        by rewrite Hfp2 in Hlen.
    - destruct Hsuf' as [k Hk]. apply app_eq_app in Hk as [l [[_ ->]|[_ ->]]].
      + rewrite length_app in Hge. destruct l; [done | simpl in Hge; lia].
      + rewrite length_app in Hle. destruct l; [done | simpl in Hle; lia]. }
  f_equal. f_equal.
  destruct (tokenShape_first fp Htok) as (c & r & -> & Hc).
  destruct m1 as [|w m1].
  - destruct Hm0 as [->| ->]; [done|]. exfalso.
    destruct Hsuf as [k Hk]. cbn [app] in Hk.
    change (pre ++ 46%N :: c :: r) with (pre ++ [46%N] ++ (c :: r)) in Hk.
    rewrite app_assoc in Hk. change (k ++ 36%N :: c :: r)
      with (k ++ [36%N] ++ (c :: r)) in Hk. rewrite (app_assoc k) in Hk.
    apply app_inv_tail in Hk. apply (f_equal last) in Hk.
    rewrite !last_snoc in Hk. done.
  - exfalso. destruct Hsuf as [k Hk].
    assert (∃ m, m0 ++ (w :: m1) = m ++ [default w (last m1)]) as [m Hm].
    { destruct (last m1) as [z|] eqn:Hz.
      - apply last_Some in Hz as [m1' ->]. exists (m0 ++ w :: m1').
        by rewrite <-app_assoc.
      - apply last_None in Hz as ->. exists m0. done. }
    assert (isWhiteSpace (default w (last m1))) as Hws.
    { rewrite Forall_forall in Hm1. apply Hm1.
      destruct (last m1) as [z|] eqn:Hz; [|by left].
      right. apply last_Some in Hz as [m1' ->]. rewrite elem_of_app. right. by left. }
    rewrite (app_assoc m0), Hm, <-app_assoc in Hk.
    change (pre ++ 46%N :: c :: r) with (pre ++ [46%N] ++ (c :: r)) in Hk.
    rewrite !app_assoc in Hk. apply app_inv_tail in Hk.
    apply (f_equal last) in Hk. rewrite !last_snoc in Hk.
    injection Hk as Hk. rewrite <-Hk in Hws. done.
Qed.

Lemma priceMatch_after_point_witness :
  let pre := lit "Tea 12" in
  let fp := lit "505" in
  Forall isDigit fp ∧ fp ≠ [] ∧ length fp ≠ 2 ∧
  Regex.priceMatch (pre ++ 46%N :: fp) = Some (fp, fp).
Proof.
  intros pre fp.
  assert (H1 : Forall isDigit fp) by by_evaluation.
  assert (H2 : fp ≠ []) by by_evaluation.
  assert (H3 : length fp ≠ 2) by (vm_compute; lia).
  split; [exact H1|]. split; [exact H2|]. split; [exact H3|].
  exact (priceMatch_after_point pre fp H1 H2 H3).
Defined.
